(** * bpm.py: beat refinement, offbeat insertion, sub-frame timing and BPM
    stabilisation

    A shallow embedding of the numeric core of [src/bpm.py].  NumPy arrays
    are lists; frame indices coming from the beat tracker and the onset
    detector are integers ([Z]).  A finite float64 value is the rational
    ([Q]) it denotes, the literals [1e-6], [1e-8], [0.15], ... are the
    rationals they denote, and arithmetic on finite values is exact:
    rounding is not modelled.  Where a division can meet a zero divisor
    (line 418) the values are those of [Ieee.fl], which has [inf], [-inf]
    and [nan] beside the finite numbers.  Functions keep the names they
    have in the source; arguments a function receives but never reads
    ([hop_length], [sr], [tempo], ...) are left out of its model. *)

From Stdlib Require Import QArith Qround Qabs Qminmax Lqa.
From Stdlib Require Import ZArith Lia List Bool Sorted SetoidList PeanoNat.
From Stdlib Require Import Permutation.
Import ListNotations.

Open Scope Q_scope.

(** ** The NumPy and Python operations the program uses *)

Module Np.

(** [x < y] on floats, as a boolean. *)
Definition Qltb (x y : Q) : bool := negb (Qle_bool y x).

(** [int(x)]: truncation towards zero. *)
Definition Qtrunc (x : Q) : Z := Z.quot (Qnum x) (Z.pos (Qden x)).

(** [np.diff(a)]. *)
Fixpoint diff (a : list Q) : list Q :=
  match a with
  | x :: (y :: _) as t => (y - x) :: diff t
  | _ => []
  end.

(** [np.diff] of an integer array. *)
Fixpoint diffZ (a : list Z) : list Z :=
  match a with
  | x :: (y :: _) as t => (y - x)%Z :: diffZ t
  | _ => []
  end.

(** Ascending sort, by insertion. *)
Fixpoint insert_sorted (x : Q) (l : list Q) : list Q :=
  match l with
  | [] => [x]
  | y :: t => if Qle_bool x y then x :: l else y :: insert_sorted x t
  end.

Definition sort (l : list Q) : list Q := fold_right insert_sorted [] l.

(** [np.median(a)]: the middle element of the sorted data, or the mean of
    the two middle elements.  NumPy answers [nan] on an empty array; the
    program never takes the median of one, and the model answers [0]. *)
Definition median (a : list Q) : Q :=
  let s := sort a in
  let n := length s in
  if Nat.even n
  then (nth (n / 2 - 1) s 0 + nth (n / 2) s 0) / 2
  else nth (n / 2) s 0.

(** [np.argmin] and [np.argmax] return the first index of an extremal
    element: the scan keeps the best index seen so far and replaces it only
    by a strictly better element. *)
Section First_best.
Context {A : Type} (better : A -> A -> bool).

Fixpoint first_best_from (bi : nat) (b : A) (i : nat) (l : list A) : nat :=
  match l with
  | [] => bi
  | x :: t =>
      if better x b then first_best_from i x (S i) t
      else first_best_from bi b (S i) t
  end.

Definition first_best (l : list A) : nat :=
  match l with
  | [] => 0%nat
  | x :: t => first_best_from 0 x 1 t
  end.
End First_best.

Definition argmin (l : list Q) : nat := first_best Qltb l.
Definition argmax (l : list Q) : nat := first_best (fun x b => Qltb b x) l.
Definition argminZ (l : list Z) : nat := first_best Z.ltb l.

(** [a[start:stop]] for [0 <= start] (negative bounds do not occur). *)
Definition slice {A : Type} (a : list A) (start stop : nat) : list A :=
  firstn (stop - start) (skipn start a).

(** [np.mean] of a boolean array: the fraction of [True] entries (the
    program only takes it over windows of eight entries). *)
Definition mean_bool (l : list bool) : Q :=
  inject_Z (Z.of_nat (length (filter (fun b => b) l)))
  / inject_Z (Z.of_nat (length l)).

(** [list.insert(pos, x)] for [0 <= pos]; a position past the end
    appends. *)
Definition list_insert {A : Type} (pos : nat) (x : A) (l : list A) : list A :=
  firstn pos l ++ x :: skipn pos l.

(** [a[k]] with Python's negative indices; [None] is an [IndexError]. *)
Definition py_index {A : Type} (a : list A) (k : Z) : option A :=
  let n := Z.of_nat (length a) in
  if (0 <=? k)%Z then nth_error a (Z.to_nat k)
  else if (- n <=? k)%Z then nth_error a (Z.to_nat (n + k))
  else None.

(** [np.searchsorted(a, v)] for one key, [side='left']: NumPy's lower-bound
    binary search.  On ascending data it is the number of elements strictly
    below [v]; on any data it runs as written here. *)
Fixpoint bisect_left (fuel : nat) (a : list Q) (v : Q) (lo hi : nat) : nat :=
  match fuel with
  | O => lo
  | S fuel' =>
      if (lo <? hi)%nat then
        let mid := (lo + (hi - lo) / 2)%nat in
        if Qltb (nth mid a 0) v
        then bisect_left fuel' a v (S mid) hi
        else bisect_left fuel' a v lo mid
      else lo
  end.

Definition searchsorted (a : list Q) (v : Q) : nat :=
  bisect_left (S (length a)) a v 0 (length a).

(** [sorted(set(l))]: the distinct values of [l] in ascending order. *)
Fixpoint insert_uniq (x : Q) (l : list Q) : list Q :=
  match l with
  | [] => [x]
  | y :: t =>
      match x ?= y with
      | Lt => x :: l
      | Eq => l
      | Gt => y :: insert_uniq x t
      end
  end.

Definition sorted_set (l : list Q) : list Q := fold_right insert_uniq [] l.

End Np.

Import Np.

(** ** Beat-to-onset refiner: [refine_beats_to_onsets_advanced] *)

Module Refiner.

(** Lines 218-219: a quarter of the median beat spacing, at least 4 frames;
    the spacing is taken as 100 when there are fewer than two beats. *)
Definition avg_beat_interval (beat_frames : list Z) : Q :=
  if (1 <? length beat_frames)%nat
  then median (map inject_Z (diffZ beat_frames))
  else 100.

Definition search_window (beat_frames : list Z) : Z :=
  Z.max 4 (Qtrunc (avg_beat_interval beat_frames / 4)).

(** Lines 224-226: the onset nearest to [frame], the first one on a tie. *)
Definition onset_distances (onset_frames : list Z) (frame : Z) : list Z :=
  map (fun o => Z.abs (o - frame)) onset_frames.

Definition nearest_onset (onset_frames : list Z) (frame : Z) : Z :=
  nth (argminZ (onset_distances onset_frames frame)) onset_frames 0%Z.

Definition nearest_distance (onset_frames : list Z) (frame : Z) : Z :=
  let d := onset_distances onset_frames frame in nth (argminZ d) d 0%Z.

(** Lines 234-239: the envelope window clipped to the envelope, and the
    first position of its maximum; the beat stays where it is when the
    clipped window is empty. *)
Definition window_start (frame w : Z) : Z := Z.max 0 (frame - w).

Definition window_end (onset_env : list Q) (frame w : Z) : Z :=
  Z.min (Z.of_nat (length onset_env)) (frame + w + 1).

Definition peak_fallback (onset_env : list Q) (w frame : Z) : Z :=
  let start := window_start frame w in
  let stop := window_end onset_env frame w in
  if (start <? stop)%Z
  then start + Z.of_nat (argmax (slice onset_env (Z.to_nat start) (Z.to_nat stop)))
  else frame.

(** One iteration of the loop of lines 221-239. *)
Definition refine_one (onset_env : list Q) (onset_frames : list Z)
    (w frame : Z) : Z :=
  if (0 <? length onset_frames)%nat then
    if (nearest_distance onset_frames frame <=? w)%Z
    then nearest_onset onset_frames frame
    else peak_fallback onset_env w frame
  else peak_fallback onset_env w frame.

(** The result is a float array ([astype(float)]). *)
Definition refine_beats_to_onsets_advanced (onset_env : list Q)
    (beat_frames onset_frames : list Z) : list Q :=
  let w := search_window beat_frames in
  map (fun frame => inject_Z (refine_one onset_env onset_frames w frame))
      beat_frames.

(** The position the specification promises on the fallback path: an
    index of the envelope within [w] frames of [frame] whose value is
    maximal among the envelope values within [w] frames of [frame]. *)
Definition is_window_peak (onset_env : list Q) (frame w p : Z) : Prop :=
  (0 <= p < Z.of_nat (length onset_env))%Z /\
  (frame - w <= p <= frame + w)%Z /\
  forall j : Z,
    (0 <= j < Z.of_nat (length onset_env))%Z ->
    (frame - w <= j <= frame + w)%Z ->
    nth (Z.to_nat j) onset_env 0 <= nth (Z.to_nat p) onset_env 0.

End Refiner.

(** ** Offbeat / phase-shift detector: [detect_and_insert_offbeats] *)

Module Offbeat.

Inductive shift_type : Type := To_offbeat | Start_offbeat | To_onbeat.

(** The dictionaries appended to [phase_shifts]. *)
Record shift : Type := mk_shift {
  beat_idx : Z;
  phase : Q;
  type : shift_type
}.

Definition window_size : nat := 8.
Definition offbeat_phases : list Q := [0.5; 0.25; 0.75].
Definition phase_tolerance : Q := 0.15.

(** Lines 272-281, for one onset: its phase within the beat interval it
    falls in, with the index of that beat; nothing when the onset lies
    outside the grid or the interval is not positive.  [x % 1.0] is
    [x - floor x]. *)
Definition onset_phase (beat_frames : list Q) (onset : Q) : option (Q * Z) :=
  let idx := (Z.of_nat (searchsorted beat_frames onset) - 1)%Z in
  if ((0 <=? idx) && (idx <? Z.of_nat (length beat_frames) - 1))%Z then
    let beat_start := nth (Z.to_nat idx) beat_frames 0 in
    let local_interval := nth (Z.to_nat (idx + 1)) beat_frames 0 - beat_start in
    if Qltb 0 local_interval then
      let ph := (onset - beat_start) / local_interval in
      Some (ph - inject_Z (Qfloor ph), idx)
    else None
  else None.

(** The parallel lists [onset_phases] and [onset_beat_indices], kept as
    one list of pairs. *)
Fixpoint onset_phases (beat_frames onset_frames : list Q) : list (Q * Z) :=
  match onset_frames with
  | [] => []
  | onset :: rest =>
      match onset_phase beat_frames onset with
      | Some pb => pb :: onset_phases beat_frames rest
      | None => onset_phases beat_frames rest
      end
  end.

(** [np.mean(np.abs(window - offbeat_phase) < phase_tolerance)]. *)
Definition near_ratio (window : list Q) (offbeat_phase : Q) : Q :=
  mean_bool (map (fun p => Qltb (Qabs (p - offbeat_phase)) phase_tolerance) window).

(** Lines 334-336. *)
Definition onbeat_ratio (window : list Q) : Q :=
  mean_bool (map (fun p => Qltb p phase_tolerance || Qltb (1 - phase_tolerance) p)
                 window).

(** Lines 303-331: the events window [i] adds for one candidate phase. *)
Definition offbeat_events (phases : list Q) (indices : list Z) (i : nat)
    (offbeat_phase : Q) : list shift :=
  let window_phases := slice phases i (i + window_size) in
  let window_beat_idx := slice indices i (i + window_size) in
  if Qltb 0.6 (near_ratio window_phases offbeat_phase) then
    if (window_size <=? i)%nat then
      let prev_window_phases := slice phases (i - window_size) i in
      if Qltb (near_ratio prev_window_phases offbeat_phase) 0.4
      then [mk_shift (nth 0 window_beat_idx 0%Z) offbeat_phase To_offbeat]
      else []
    else if (i =? 0)%nat
      then [mk_shift 0 offbeat_phase Start_offbeat]
      else []
  else [].

(** Lines 333-349: the return to the beat; the inner loop stops at the
    first candidate phase the previous window was at. *)
Definition onbeat_events (phases : list Q) (indices : list Z) (i : nat)
    : list shift :=
  if Qltb 0.6 (onbeat_ratio (slice phases i (i + window_size)))
     && (window_size <=? i)%nat then
    let prev_window_phases := slice phases (i - window_size) i in
    if existsb (fun ob => Qltb 0.5 (near_ratio prev_window_phases ob)) offbeat_phases
    then [mk_shift (nth i indices 0%Z) 0 To_onbeat]
    else []
  else [].

(** Lines 298-349: all windows, in order. *)
Definition phase_shifts (pb : list (Q * Z)) : list shift :=
  let phases := map fst pb in
  let indices := map snd pb in
  flat_map (fun i =>
              flat_map (offbeat_events phases indices i) offbeat_phases
              ++ onbeat_events phases indices i)
           (seq 0 (length pb - window_size)).

(** Lines 352-357: the first event of each beat index is kept. *)
Fixpoint unique_from (seen_beats : list Z) (l : list shift) : list shift :=
  match l with
  | [] => []
  | s :: rest =>
      if existsb (Z.eqb (beat_idx s)) seen_beats
      then unique_from seen_beats rest
      else s :: unique_from (beat_idx s :: seen_beats) rest
  end.

Definition unique_shifts (l : list shift) : list shift := unique_from [] l.

(** [sorted(unique_shifts, key=beat_idx)]: a stable sort. *)
Fixpoint insert_shift (s : shift) (l : list shift) : list shift :=
  match l with
  | [] => [s]
  | y :: t =>
      if (beat_idx y <? beat_idx s)%Z then y :: insert_shift s t
      else s :: l
  end.

Definition sort_shifts (l : list shift) : list shift :=
  fold_right insert_shift [] l.

(** Lines 374-386: the frame to insert for an off-grid event. *)
Definition offbeat_frame (beat_frames onset_frames : list Q) (s : shift) : Q :=
  let beat_start := nth (Z.to_nat (beat_idx s)) beat_frames 0 in
  let local_interval :=
    nth (Z.to_nat (beat_idx s + 1)) beat_frames 0 - beat_start in
  let theoretical := beat_start + phase s * local_interval in
  let onset_distances := map (fun o => Qabs (o - theoretical)) onset_frames in
  if (0 <? length onset_distances)%nat then
    let nearest_idx := argmin onset_distances in
    if Qltb (nth nearest_idx onset_distances 0) (local_interval * 0.2)
    then nth nearest_idx onset_frames 0
    else theoretical
  else theoretical.

(** Lines 366-391, one iteration: the state is [new_beats] with
    [inserted_count]. *)
Definition insert_step (beat_frames onset_frames : list Q)
    (st : list Q * nat) (s : shift) : list Q * nat :=
  let '(new_beats, inserted_count) := st in
  if ((beat_idx s <? 0) || (Z.of_nat (length beat_frames) - 1 <=? beat_idx s))%Z
  then st
  else if Qltb 0.01 (phase s) then
    let insert_pos := (Z.to_nat (beat_idx s) + 1 + inserted_count)%nat in
    (list_insert insert_pos (offbeat_frame beat_frames onset_frames s) new_beats,
     S inserted_count)
  else st.

Definition insert_all (beat_frames onset_frames : list Q) (shifts : list shift)
    : list Q :=
  fst (fold_left (insert_step beat_frames onset_frames) shifts (beat_frames, 0%nat)).

Definition detect_and_insert_offbeats (beat_frames onset_frames : list Q)
    : list Q :=
  if ((length beat_frames <? 4) || (length onset_frames <? 4))%nat
  then beat_frames
  else if Qle_bool (median (diff beat_frames)) 0 then beat_frames
  else
    let pb := onset_phases beat_frames onset_frames in
    if (length pb <? 4)%nat then beat_frames
    else
      match unique_shifts (phase_shifts pb) with
      | [] => beat_frames
      | us => sorted_set (insert_all beat_frames onset_frames (sort_shifts us))
      end.

End Offbeat.

(** ** Float values that need not be finite

    A float64 division by zero does not raise in NumPy: it gives [inf],
    [-inf] or [nan], and these values travel through the arithmetic that
    follows as IEEE 754 prescribes.  [Fin q] is the finite value [q].
    Every zero divisor of the program is a sum that cancels, hence [+0.0],
    so a zero is taken as positive when it divides. *)

Module Ieee.

Inductive fl : Type :=
| Fin (q : Q)
| PInf
| NInf
| NaN.

Definition is_finite (x : fl) : bool :=
  match x with Fin _ => true | _ => false end.

(** The number a finite value denotes. *)
Definition to_Q (x : fl) : Q :=
  match x with Fin q => q | _ => 0 end.

Definition is_zero (x : fl) : bool :=
  match x with Fin q => Qeq_bool q 0 | _ => false end.

Definition fl_neg (x : fl) : fl :=
  match x with
  | Fin q => Fin (- q)
  | PInf => NInf
  | NInf => PInf
  | NaN => NaN
  end.

Definition fl_add (x y : fl) : fl :=
  match x, y with
  | NaN, _ | _, NaN => NaN
  | Fin a, Fin b => Fin (a + b)
  | PInf, NInf | NInf, PInf => NaN
  | PInf, _ | _, PInf => PInf
  | NInf, _ | _, NInf => NInf
  end.

Definition fl_sub (x y : fl) : fl := fl_add x (fl_neg y).

Definition fl_mul (x y : fl) : fl :=
  match x, y with
  | NaN, _ | _, NaN => NaN
  | Fin a, Fin b => Fin (a * b)
  | Fin a, PInf | PInf, Fin a =>
      match a ?= 0 with Eq => NaN | Lt => NInf | Gt => PInf end
  | Fin a, NInf | NInf, Fin a =>
      match a ?= 0 with Eq => NaN | Lt => PInf | Gt => NInf end
  | PInf, PInf | NInf, NInf => PInf
  | PInf, NInf | NInf, PInf => NInf
  end.

Definition fl_div (x y : fl) : fl :=
  match x, y with
  | NaN, _ | _, NaN => NaN
  | Fin a, Fin b =>
      if Qeq_bool b 0
      then match a ?= 0 with Eq => NaN | Lt => NInf | Gt => PInf end
      else Fin (a / b)
  | Fin _, _ => Fin 0
  | PInf, Fin b => if Qltb b 0 then NInf else PInf
  | NInf, Fin b => if Qltb b 0 then PInf else NInf
  | _, _ => NaN
  end.

(** [np.maximum]: [nan] as soon as one argument is [nan]. *)
Definition fl_max (x y : fl) : fl :=
  match x, y with
  | NaN, _ | _, NaN => NaN
  | PInf, _ | _, PInf => PInf
  | NInf, z | z, NInf => z
  | Fin a, Fin b => Fin (Qmax a b)
  end.

(** [x < y]; a comparison with [nan] is false. *)
Definition fl_ltb (x y : fl) : bool :=
  match x, y with
  | NaN, _ | _, NaN => false
  | Fin a, Fin b => Qltb a b
  | PInf, _ | _, NInf => false
  | NInf, _ | _, PInf => true
  end.

(** [np.diff(a)]. *)
Fixpoint fl_diff (a : list fl) : list fl :=
  match a with
  | x :: (y :: _) as t => fl_sub y x :: fl_diff t
  | _ => []
  end.

End Ieee.

(** ** Sub-frame time interpolator: [frames_to_time_precise]

    The frames and the envelope are finite; [sr] is the sample rate, a
    positive number (44100 in the program). *)

Module Interp.
Import Ieee.

Definition eps : Q := 1e-8.

(** Line 418.  Numerator and denominator are finite; the quotient is
    [inf], [-inf] or [nan] when the denominator is zero, which happens when
    [alpha - 2 * beta + gamma] is [-1e-8]. *)
Definition parabolic_offset (alpha beta gamma : Q) : fl :=
  fl_div (Fin (0.5 * (alpha - gamma)))
         (Fin (alpha - 2 * beta + gamma + eps)).

(** Lines 410-416: the frame has both neighbours and is a strict peak. *)
Definition is_peak (onset_env : list Q) (frame_int : Z) : bool :=
  ((1 <=? frame_int) && (frame_int <? Z.of_nat (length onset_env) - 1))%Z
  && Qltb (nth (Z.to_nat (frame_int - 1)) onset_env 0)
          (nth (Z.to_nat frame_int) onset_env 0)
  && Qltb (nth (Z.to_nat (frame_int + 1)) onset_env 0)
          (nth (Z.to_nat frame_int) onset_env 0).

(** The loop of lines 406-427 around the formula of line 418.  The value
    the float division of line 418 returns is the exact quotient only up
    to rounding, so the loop is written for any [offset] formula: what
    holds for every [offset] holds for the rounded one. *)
Section Offset.
Variable offset : Q -> Q -> Q -> fl.

Definition offset_at_by (onset_env : list Q) (frame_int : Z) : fl :=
  offset (nth (Z.to_nat (frame_int - 1)) onset_env 0)
         (nth (Z.to_nat frame_int) onset_env 0)
         (nth (Z.to_nat (frame_int + 1)) onset_env 0).

(** Lines 407-423. *)
Definition refined_frame_by (onset_env : list Q) (frame : Q) : fl :=
  let frame_int := Qtrunc frame in
  if is_peak onset_env frame_int
  then fl_add (Fin (inject_Z frame_int)) (offset_at_by onset_env frame_int)
  else Fin frame.

(** Lines 426-427. *)
Definition frames_to_time_by (frames onset_env : list Q)
    (hop_length sr : Q) : list fl :=
  map (fun frame =>
         fl_div (fl_mul (refined_frame_by onset_env frame) (Fin hop_length))
                (Fin sr))
      frames.
End Offset.


Definition refined_frame : list Q -> Q -> fl :=
  refined_frame_by parabolic_offset.

Definition frames_to_time_precise : list Q -> list Q -> Q -> Q -> list fl :=
  frames_to_time_by parabolic_offset.

End Interp.

(** ** Instantaneous BPM (lines 152-154 of [analyze_bpm])

    [Bpm] is the computation on beat times that are all finite, where it
    stays within the finite numbers; [BpmIeee] is the same computation on
    any beat times. *)

Module Bpm.

Definition min_interval : Q := 1e-6.

Definition beat_intervals (beat_times : list Q) : list Q :=
  map (fun d => Qmax d min_interval) (diff beat_times).

Definition instantaneous_bpms (beat_times : list Q) : list Q :=
  map (fun d => 60 / d) (beat_intervals beat_times).

End Bpm.

Module BpmIeee.
Import Ieee.

Definition beat_intervals (beat_times : list fl) : list fl :=
  map (fun d => fl_max d (Fin Bpm.min_interval)) (fl_diff beat_times).

Definition instantaneous_bpms (beat_times : list fl) : list fl :=
  map (fun d => fl_div (Fin 60) d) (beat_intervals beat_times).

End BpmIeee.

(** ** BPM stabiliser: [stabilize_bpm_sections] *)

Module Stabilizer.

(** The section dictionaries. *)
Record section : Type := mk_section {
  start_idx : Z;
  end_idx : Z;
  bpm : Q;
  time : Q
}.

Definition within (tolerance x y : Q) : bool := Qle_bool (Qabs (x - y)) tolerance.

(** Reading [beat_times] can raise [IndexError]: results are options. *)
Definition bind {A B : Type} (o : option A) (k : A -> option B) : option B :=
  match o with Some a => k a | None => None end.

Notation "x <- o ;; k" := (bind o (fun x => k))
  (at level 61, o at next level, right associativity).

(** Lines 456-485.  [i] is the loop index of the first value of [rest];
    the section being accumulated starts at [current_section_start] and
    holds [current_section_bpms]; [sections] are those closed so far. *)
Fixpoint scan (beat_times : list Q) (tolerance : Q) (rest : list Q) (i : nat)
    (current_section_start : nat) (current_section_bpms : list Q)
    (sections : list section) : option (list section) :=
  match rest with
  | [] =>
      t <- nth_error beat_times current_section_start ;;
      Some (sections ++
            [mk_section (Z.of_nat current_section_start) (Z.of_nat i - 1)
                        (median current_section_bpms) t])
  | b :: rest' =>
      if within tolerance b (median current_section_bpms) then
        scan beat_times tolerance rest' (S i) current_section_start
             (current_section_bpms ++ [b]) sections
      else
        t <- nth_error beat_times current_section_start ;;
        scan beat_times tolerance rest' (S i) i [b]
             (sections ++
              [mk_section (Z.of_nat current_section_start) (Z.of_nat i - 1)
                          (median current_section_bpms) t])
  end.

Definition segment (beat_times bpms : list Q) (tolerance : Q)
    : option (list section) :=
  match bpms with
  | [] => None
  | b0 :: rest => scan beat_times tolerance rest 1 0 [b0] []
  end.

(** Lines 494-499: [last] absorbs [s].  [end_idx] is overwritten first, so
    [last_count] is already the length of the merged section.  The counts
    of sections that come from the scan are positive, so the division is
    by a positive number.  The mean is the exact one; the float mean of
    line 499 is its rounding, which can leave the interval between the two
    BPM values by a unit in the last place. *)
Definition absorb (last s : section) : section :=
  let new_end := end_idx s in
  let last_count := (new_end - start_idx last + 1)%Z in
  let curr_count := (end_idx s - start_idx s + 1)%Z in
  mk_section (start_idx last) new_end
    ((bpm last * inject_Z last_count + bpm s * inject_Z curr_count)
     / inject_Z (last_count + curr_count))
    (time last).

(** Lines 488-503.  [last] is [merged_sections[-1]], the only merged
    section the loop reads or changes. *)
Fixpoint merge_from (tolerance : Q) (last : section) (rest : list section)
    : list section :=
  match rest with
  | [] => [last]
  | s :: rest' =>
      if within tolerance (bpm s) (bpm last)
      then merge_from tolerance (absorb last s) rest'
      else last :: merge_from tolerance s rest'
  end.

Definition merge_sections (tolerance : Q) (sections : list section)
    : list section :=
  match sections with
  | [] => []
  | s :: rest => merge_from tolerance s rest
  end.

(** No two neighbours of the list have BPMs within the tolerance. *)
Fixpoint adjacent_apart (tolerance : Q) (l : list section) : bool :=
  match l with
  | a :: (b :: _) as t =>
      negb (within tolerance (bpm b) (bpm a)) && adjacent_apart tolerance t
  | _ => true
  end.

(** Line 517: the time that closes the last section. *)
Definition closing_time (beat_times : list Q) (s : section) : option Q :=
  if (end_idx s + 1 <? Z.of_nat (length beat_times))%Z
  then py_index beat_times (end_idx s + 1)
  else py_index beat_times (-1).

(** Lines 507-517. *)
Fixpoint build_output (beat_times : list Q) (merged_sections : list section)
    : option (list Q * list Q) :=
  match merged_sections with
  | [] => Some ([], [])
  | [s] =>
      t <- closing_time beat_times s ;;
      Some ([time s; t], [bpm s])
  | s :: rest =>
      out <- build_output beat_times rest ;;
      Some (time s :: fst out, bpm s :: snd out)
  end.

Definition stabilize_bpm_sections (beat_times bpms : list Q) (tolerance : Q)
    : option (list Q * list Q) :=
  if (length bpms <? 2)%nat then Some (beat_times, bpms)
  else
    sections <- segment beat_times bpms tolerance ;;
    build_output beat_times (merge_sections tolerance sections).

End Stabilizer.

(** ** Which events of the detector insert a frame *)

Module OffbeatEvents.
Import Offbeat.

(** The test of lines 370-373: the event leads to an insertion. *)
Definition inserts (beat_frames : list Q) (s : shift) : bool :=
  negb ((beat_idx s <? 0) || (Z.of_nat (length beat_frames) - 1 <=? beat_idx s))%Z
  && Qltb 0.01 (phase s).

End OffbeatEvents.

(** ** What the stabiliser's sections are meant to be

    [tiling beat_times lo l hi]: the sections of [l] are not empty, follow
    one another without gap or overlap from beat index [lo] to beat index
    [hi], and each carries the time of its first beat. *)

Module Sections.
Import Stabilizer.

Inductive tiling (beat_times : list Q) : Z -> list section -> Z -> Prop :=
| tiling_last : forall s,
    (0 <= start_idx s <= end_idx s)%Z ->
    nth_error beat_times (Z.to_nat (start_idx s)) = Some (time s) ->
    tiling beat_times (start_idx s) [s] (end_idx s)
| tiling_cons : forall s l hi,
    (0 <= start_idx s <= end_idx s)%Z ->
    nth_error beat_times (Z.to_nat (start_idx s)) = Some (time s) ->
    tiling beat_times (end_idx s + 1) l hi ->
    tiling beat_times (start_idx s) (s :: l) hi.

End Sections.

(** ** Onset envelope combiner: [compute_combined_onset_envelope]

    Lines 187-197.  The two onset-strength curves are what the calls to
    librosa return (lines 169-185) and are the arguments of the model.
    [None] is the [ValueError] NumPy raises. *)

Module Envelope.

(** [np.max(a)]; an empty array has no maximum. *)
Definition np_max (a : list Q) : option Q :=
  match a with
  | [] => None
  | x :: t => Some (fold_left Qmax t x)
  end.

(** Lines 188-189.  The exact quotient is below 1; the float quotient is
    its rounding and can be 1.0 when [1e-8] is small beside the maximum. *)
Definition normalize (a : list Q) : option (list Q) :=
  match np_max a with
  | Some m => Some (map (fun x => x / (m + 1e-8)) a)
  | None => None
  end.

Fixpoint zip_with (f : Q -> Q -> Q) (a b : list Q) : list Q :=
  match a, b with
  | x :: a', y :: b' => f x y :: zip_with f a' b'
  | _, _ => []
  end.

(** Line 192, with NumPy's broadcasting: arrays of one length are added
    element by element, an array of length one is added to every element
    of the other, and other lengths do not go together. *)
Definition weighted_sum (spectral energy : list Q) : option (list Q) :=
  let f := fun x y => 0.7 * x + 0.3 * y in
  if (length spectral =? length energy)%nat
  then Some (zip_with f spectral energy)
  else
    match spectral, energy with
    | [x], _ => Some (map (fun y => f x y) energy)
    | _, [y] => Some (map (fun x => f x y) spectral)
    | _, _ => None
    end.

(** [scipy.ndimage.median_filter(a, size=3)] on a one-dimensional array,
    with the default boundary mode [reflect]: the sample at each end is
    its own outer neighbour. *)
Definition median_filter3 (a : list Q) : list Q :=
  map (fun i => median [nth (i - 1) a 0; nth i a 0;
                        nth (Nat.min (i + 1) (length a - 1)) a 0])
      (seq 0 (length a)).

Definition compute_combined_onset_envelope (onset_spectral onset_energy : list Q)
    : option (list Q) :=
  match normalize onset_spectral with
  | None => None
  | Some spectral =>
      match normalize onset_energy with
      | None => None
      | Some energy =>
          match weighted_sum spectral energy with
          | None => None
          | Some combined => Some (median_filter3 combined)
          end
      end
  end.

End Envelope.

(** ** [analyze_bpm], after the calls to librosa

    Lines 135-160.  The envelope, the coarse beats and the onsets are what
    lines 97-133 obtain from librosa; [hop_length] is the constant of line
    85.  The tempo estimate is handed through unchanged and left out. *)

Module Pipeline.
Import Ieee.

Definition hop_length : Q := 128.

(** Lines 135-146. *)
Definition beat_frames_final (onset_env : list Q)
    (beat_frames onset_frames : list Z) (detect_offbeats : bool) : list Q :=
  let beat_frames_refined :=
    Refiner.refine_beats_to_onsets_advanced onset_env beat_frames onset_frames in
  if detect_offbeats
  then Offbeat.detect_and_insert_offbeats beat_frames_refined
         (map inject_Z onset_frames)
  else beat_frames_refined.

(** Line 149. *)
Definition beat_times (onset_env : list Q) (beat_frames onset_frames : list Z)
    (sr : Q) (detect_offbeats : bool) : list fl :=
  Interp.frames_to_time_precise
    (beat_frames_final onset_env beat_frames onset_frames detect_offbeats)
    onset_env hop_length sr.

(** Lines 152-160, for beat times that are all finite. *)
Definition timing_points (beat_times : list Q) (stabilize : bool)
    (bpm_tolerance : Q) : option (list Q * list Q) :=
  let bpms := Bpm.instantaneous_bpms beat_times in
  if stabilize && (1 <? length beat_times)%nat
  then Stabilizer.stabilize_bpm_sections beat_times bpms bpm_tolerance
  else Some (beat_times, bpms).

(** The rows both formatters print: [zip(beat_times[:-1], bpms)] (lines
    526 and 541). *)
Definition timing_rows (beat_times bpms : list Q) : list (Q * Q) :=
  combine (removelast beat_times) bpms.

End Pipeline.

(** * Properties *)

(** ** Facts about the NumPy operations *)

Module NpFacts.

(** Sortedness of a list of literals, one comparison at a time. *)
Ltac sorted_literal := repeat (constructor; try reflexivity).

Lemma Qltb_lt (x y : Q) : Qltb x y = true <-> x < y.
Proof.
  unfold Qltb. rewrite negb_true_iff.
  split; intros H.
  - apply Qnot_le_lt. intros Hle. apply Qle_bool_iff in Hle. congruence.
  - destruct (Qle_bool y x) eqn:E; [|reflexivity].
    apply Qle_bool_iff in E. exfalso. exact (Qlt_not_le _ _ H E).
Qed.

Lemma Qltb_ge (x y : Q) : Qltb x y = false <-> y <= x.
Proof.
  unfold Qltb. rewrite negb_false_iff. apply Qle_bool_iff.
Qed.

Lemma nth_map_of_nth_error {A B : Type} (f : A -> B) (l : list A) (i : nat)
    (x : A) (d : B) :
  nth_error l i = Some x -> nth i (map f l) d = f x.
Proof.
  revert i. induction l as [|a l IH]; intros [|i] H; simpl in *;
    try discriminate.
  - now inversion H.
  - now apply IH.
Qed.

Lemma nth_slice {A : Type} (a : list A) (start stop k : nat) (d : A) :
  (k < stop - start)%nat -> nth k (slice a start stop) d = nth (start + k) a d.
Proof.
  intros Hk. unfold slice.
  rewrite nth_firstn.
  apply Nat.ltb_lt in Hk. rewrite Hk.
  now rewrite nth_skipn.
Qed.

Lemma length_slice {A : Type} (a : list A) (start stop : nat) :
  (stop <= length a)%nat -> length (slice a start stop) = (stop - start)%nat.
Proof.
  intros H. unfold slice. rewrite length_firstn, length_skipn. lia.
Qed.

(** The binary search never runs out of fuel: once the fuel exceeds the
    width of the interval, more fuel does not change the answer, and the
    answer lies in the interval. *)
Lemma bisect_left_fuel (a : list Q) (v : Q) (fuel : nat) :
  forall lo hi extra : nat,
    (hi - lo < fuel)%nat ->
    bisect_left (fuel + extra) a v lo hi = bisect_left fuel a v lo hi.
Proof.
  induction fuel as [|fuel IH]; intros lo hi extra Hw; [lia|].
  change (S fuel + extra)%nat with (S (fuel + extra)).
  cbn [bisect_left]. destruct (lo <? hi)%nat eqn:E; [|reflexivity].
  apply Nat.ltb_lt in E.
  assert (Hhalf : ((hi - lo) / 2 < hi - lo)%nat)
    by (apply Nat.Div0.div_lt_upper_bound; lia).
  destruct (Qltb (nth (lo + (hi - lo) / 2) a 0) v); apply IH; lia.
Qed.

Lemma bisect_left_range (a : list Q) (v : Q) (fuel : nat) :
  forall lo hi : nat,
    (lo <= hi)%nat -> (lo <= bisect_left fuel a v lo hi <= hi)%nat.
Proof.
  induction fuel as [|fuel IH]; intros lo hi Hle; cbn [bisect_left]; [lia|].
  destruct (lo <? hi)%nat eqn:E; [|lia].
  apply Nat.ltb_lt in E.
  assert (Hhalf : ((hi - lo) / 2 < hi - lo)%nat)
    by (apply Nat.Div0.div_lt_upper_bound; lia).
  destruct (Qltb (nth (lo + (hi - lo) / 2) a 0) v).
  - specialize (IH (S (lo + (hi - lo) / 2)) hi). lia.
  - specialize (IH lo (lo + (hi - lo) / 2)%nat). lia.
Qed.

Lemma searchsorted_fuel (a : list Q) (v : Q) (extra : nat) :
  bisect_left (S (length a) + extra) a v 0 (length a) = searchsorted a v.
Proof. unfold searchsorted. apply bisect_left_fuel. lia. Qed.

Lemma searchsorted_le_length (a : list Q) (v : Q) :
  (searchsorted a v <= length a)%nat.
Proof.
  unfold searchsorted.
  pose proof (bisect_left_range a v (S (length a)) 0 (length a)). lia.
Qed.

(** The scan behind [argmin] and [argmax] returns an index whose element is
    at least as good as every other, for any criterion [better] that
    decides a total preorder [R]. *)
Section First_best_spec.
Context {A : Type} (better : A -> A -> bool) (R : A -> A -> Prop).
Hypothesis R_refl : forall x, R x x.
Hypothesis R_trans : forall x y z, R x y -> R y z -> R x z.
Hypothesis better_true : forall x b, better x b = true -> R x b.
Hypothesis better_false : forall x b, better x b = false -> R b x.

Lemma first_best_from_spec (d : A) (l : list A) :
  forall bi b i,
    let k := first_best_from better bi b i l in
    (k = bi /\ forall x, In x l -> R b x) \/
    ((i <= k < i + length l)%nat /\ R (nth (k - i) l d) b /\
     forall x, In x l -> R (nth (k - i) l d) x).
Proof.
  induction l as [|x t IH]; intros bi b i; simpl.
  - left. split; [reflexivity | intros x []].
  - destruct (better x b) eqn:E.
    + right. destruct (IH i x (S i)) as [[Hk Hall] | (Hk & Hb & Hall)].
      * rewrite Hk, Nat.sub_diag. simpl. repeat split; try lia.
        -- now apply better_true.
        -- intros y [<- | Hy]; [apply R_refl | now apply Hall].
      * replace (first_best_from better i x (S i) t - i)%nat
          with (S (first_best_from better i x (S i) t - S i)) by lia.
        simpl. repeat split; try lia.
        -- eapply R_trans; [exact Hb | now apply better_true].
        -- intros y [<- | Hy]; [exact Hb | now apply Hall].
    + apply better_false in E.
      destruct (IH bi b (S i)) as [[Hk Hall] | (Hk & Hb & Hall)].
      * left. split; [exact Hk|]. intros y [<- | Hy]; [exact E | now apply Hall].
      * right.
        replace (first_best_from better bi b (S i) t - i)%nat
          with (S (first_best_from better bi b (S i) t - S i)) by lia.
        simpl. repeat split; try lia.
        -- exact Hb.
        -- intros y [<- | Hy]; [eapply R_trans; eassumption | now apply Hall].
Qed.

Lemma first_best_spec (d : A) (l : list A) :
  l <> [] ->
  (first_best better l < length l)%nat /\
  forall x, In x l -> R (nth (first_best better l) l d) x.
Proof.
  destruct l as [|x t]; [congruence | intros _]. simpl.
  destruct (first_best_from_spec d t 0%nat x 1%nat) as [[Hk Hall] | (Hk & Hb & Hall)].
  - rewrite Hk. split; [lia|]. intros y [<- | Hy]; [apply R_refl | now apply Hall].
  - destruct (first_best_from better 0 x 1 t) as [|k] eqn:E; [lia|].
    simpl in Hb, Hall. rewrite Nat.sub_0_r in Hb, Hall.
    split; [lia|]. intros y [<- | Hy]; [exact Hb | now apply Hall].
Qed.
End First_best_spec.

Lemma argmax_spec (l : list Q) :
  l <> [] ->
  (argmax l < length l)%nat /\ forall x, In x l -> x <= nth (argmax l) l 0.
Proof.
  intros H. unfold argmax.
  apply (first_best_spec (fun x b => Qltb b x) (fun a b => b <= a)); auto.
  - intros x. apply Qle_refl.
  - intros x y z Hxy Hyz. eapply Qle_trans; eassumption.
  - intros x b E. apply Qltb_lt in E. now apply Qlt_le_weak.
  - intros x b E. now apply Qltb_ge in E.
Qed.

Lemma argminZ_spec (l : list Z) :
  l <> [] ->
  (argminZ l < length l)%nat /\
  forall x, In x l -> (nth (argminZ l) l 0 <= x)%Z.
Proof.
  intros H. unfold argminZ.
  apply (first_best_spec Z.ltb Z.le); auto.
  - intros x. lia.
  - intros x y z. lia.
  - intros x b E. apply Z.ltb_lt in E. lia.
  - intros x b E. apply Z.ltb_ge in E. lia.
Qed.

End NpFacts.

Import NpFacts.

(** ** Beat-to-onset refiner *)

Module RefinerFacts.
Import Refiner.

(** C9: the refiner returns one value per input beat, whatever the
    envelope and the onsets are. *)
Theorem refine_preserves_length :
  forall (onset_env : list Q) (beat_frames onset_frames : list Z),
    length (refine_beats_to_onsets_advanced onset_env beat_frames onset_frames)
    = length beat_frames.
Proof.
  intros. unfold refine_beats_to_onsets_advanced. apply length_map.
Qed.

Lemma refine_nth (onset_env : list Q) (beat_frames onset_frames : list Z)
    (i : nat) (frame : Z) :
  nth_error beat_frames i = Some frame ->
  nth i (refine_beats_to_onsets_advanced onset_env beat_frames onset_frames) 0
  = inject_Z (refine_one onset_env onset_frames (search_window beat_frames) frame).
Proof.
  intros H. unfold refine_beats_to_onsets_advanced.
  exact (nth_map_of_nth_error
           (fun f => inject_Z (refine_one onset_env onset_frames
                                 (search_window beat_frames) f))
           beat_frames i frame 0 H).
Qed.

(** The onset the code picks is an onset, and no onset is nearer. *)
Lemma nearest_onset_spec (onset_frames : list Z) (frame : Z) :
  onset_frames <> [] ->
  In (nearest_onset onset_frames frame) onset_frames /\
  nearest_distance onset_frames frame
  = Z.abs (nearest_onset onset_frames frame - frame) /\
  forall o, In o onset_frames ->
    (Z.abs (nearest_onset onset_frames frame - frame) <= Z.abs (o - frame))%Z.
Proof.
  intros Hne.
  assert (Hd : onset_distances onset_frames frame <> []).
  { unfold onset_distances. destruct onset_frames; [congruence | discriminate]. }
  destruct (argminZ_spec _ Hd) as [Hlt Hmin].
  unfold onset_distances in Hlt. rewrite length_map in Hlt.
  assert (Heq : nearest_distance onset_frames frame
                = Z.abs (nearest_onset onset_frames frame - frame)).
  { unfold nearest_distance, nearest_onset, onset_distances.
    rewrite (nth_indep _ 0%Z (Z.abs (0 - frame)))
      by (rewrite length_map; exact Hlt).
    apply (map_nth (fun o => Z.abs (o - frame))). }
  repeat split.
  - unfold nearest_onset. now apply nth_In.
  - exact Heq.
  - intros o Ho. rewrite <- Heq. unfold nearest_distance.
    apply Hmin. unfold onset_distances.
    apply in_map_iff. now exists o.
Qed.

(** When the clipped window is not empty the fallback is a position of
    the envelope's maximum inside it. *)
Lemma peak_fallback_is_window_peak (onset_env : list Q) (w frame : Z) :
  (window_start frame w < window_end onset_env frame w)%Z ->
  is_window_peak onset_env frame w (peak_fallback onset_env w frame).
Proof.
  intros Hlt. unfold peak_fallback.
  apply Z.ltb_lt in Hlt. rewrite Hlt. apply Z.ltb_lt in Hlt.
  set (start := window_start frame w) in *.
  set (stop := window_end onset_env frame w) in *.
  assert (Hs0 : (0 <= start)%Z) by (unfold start, window_start; lia).
  assert (Hs1 : (frame - w <= start)%Z) by (unfold start, window_start; lia).
  assert (He0 : (stop <= Z.of_nat (length onset_env))%Z)
    by (unfold stop, window_end; lia).
  assert (He1 : (stop <= frame + w + 1)%Z) by (unfold stop, window_end; lia).
  set (sl := slice onset_env (Z.to_nat start) (Z.to_nat stop)).
  assert (Hlen : length sl = (Z.to_nat stop - Z.to_nat start)%nat)
    by (apply length_slice; lia).
  assert (Hne : sl <> []) by (intros E; rewrite E in Hlen; simpl in Hlen; lia).
  destruct (argmax_spec sl Hne) as [Hk Hmax].
  assert (Hp : nth (Z.to_nat (start + Z.of_nat (argmax sl))) onset_env 0
               = nth (argmax sl) sl 0).
  { pose proof (nth_slice onset_env (Z.to_nat start) (Z.to_nat stop)
                  (argmax sl) 0) as E.
    fold sl in E. rewrite E by lia. f_equal. lia. }
  assert (Hka : (Z.of_nat (argmax sl) < stop - start)%Z) by lia.
  repeat split; try lia.
  intros j Hj Hjw. rewrite Hp. apply Hmax.
    assert (Hjs : (start <= j < stop)%Z).
    { unfold start, stop, window_start, window_end. lia. }
    replace (Z.to_nat j) with (Z.to_nat start + (Z.to_nat j - Z.to_nat start))%nat
      by lia.
    rewrite <- (nth_slice onset_env (Z.to_nat start) (Z.to_nat stop)) by lia.
    fold sl. apply nth_In. lia.
Qed.

Lemma peak_fallback_outside (onset_env : list Q) (w frame : Z) :
  (window_end onset_env frame w <= window_start frame w)%Z ->
  peak_fallback onset_env w frame = frame.
Proof.
  intros H. unfold peak_fallback.
  apply Z.ltb_ge in H. now rewrite H.
Qed.

(** The paths of one iteration of the loop, for any beat: the window is
    [max(4, int(median spacing / 4))] (25 with fewer than two beats); a
    beat whose nearest onset is within the window becomes that onset; any
    other beat, and every beat when there are no onsets, becomes a position
    of the envelope's maximum within the window when that window meets the
    envelope, and stays where it is when it does not. *)
Lemma refine_paths :
  forall (onset_env : list Q) (beat_frames onset_frames : list Z)
         (i : nat) (frame : Z),
    nth_error beat_frames i = Some frame ->
    let w := search_window beat_frames in
    let r := nth i (refine_beats_to_onsets_advanced onset_env beat_frames
                      onset_frames) 0 in
    let near := nearest_onset onset_frames frame in
    ((2 <= length beat_frames)%nat ->
       w = Z.max 4 (Qtrunc (median (map inject_Z (diffZ beat_frames)) / 4))) /\
    ((length beat_frames < 2)%nat -> w = 25%Z) /\
    (onset_frames <> [] ->
       In near onset_frames /\
       forall o, In o onset_frames ->
         (Z.abs (near - frame) <= Z.abs (o - frame))%Z) /\
    (onset_frames <> [] -> (Z.abs (near - frame) <= w)%Z -> r = inject_Z near) /\
    (onset_frames = [] \/ (w < Z.abs (near - frame))%Z ->
       ((window_start frame w < window_end onset_env frame w)%Z ->
          exists p, r = inject_Z p /\ is_window_peak onset_env frame w p) /\
       ((window_end onset_env frame w <= window_start frame w)%Z ->
          r = inject_Z frame)).
Proof.
  intros onset_env beat_frames onset_frames i frame Hi w r near.
  assert (Hr : r = inject_Z (refine_one onset_env onset_frames w frame))
    by (now apply refine_nth).
  split; [| split; [| split; [| split]]].
  - intros Hlen. unfold w, search_window, avg_beat_interval.
    apply Nat.ltb_lt in Hlen. now rewrite Hlen.
  - intros Hlen. unfold w, search_window, avg_beat_interval.
    assert (Hle : (length beat_frames <= 1)%nat) by lia.
    apply Nat.ltb_ge in Hle. rewrite Hle. reflexivity.
  - intros Hne. destruct (nearest_onset_spec onset_frames frame Hne) as (H1 & _ & H3).
    now split.
  - intros Hne Hnear. rewrite Hr. unfold refine_one.
    destruct (nearest_onset_spec onset_frames frame Hne) as (_ & H2 & _).
    destruct onset_frames as [|o os]; [congruence|].
    change (0 <? length (o :: os))%nat with true. cbv iota.
    rewrite H2. fold near.
    apply Z.leb_le in Hnear. now rewrite Hnear.
  - intros Hfar.
    assert (Hfb : refine_one onset_env onset_frames w frame
                  = peak_fallback onset_env w frame).
    { unfold refine_one. destruct Hfar as [-> | Hfar]; [reflexivity|].
      destruct onset_frames as [|o os]; [reflexivity|].
      change (0 <? length (o :: os))%nat with true. cbv iota.
      destruct (nearest_onset_spec (o :: os) frame) as (_ & H2 & _);
        [discriminate|].
      rewrite H2. fold near.
      apply Z.leb_gt in Hfar. now rewrite Hfar. }
    rewrite Hr, Hfb. split.
    + intros Hwin. exists (peak_fallback onset_env w frame).
      split; [reflexivity | now apply peak_fallback_is_window_peak].
    + intros Hout. now rewrite peak_fallback_outside.
Qed.

(** An integer distance is within [max(4, int(x))] exactly when it is
    within [max(4, x)]. *)
Lemma within_int_window (x : Q) (d : Z) :
  (d <= Z.max 4 (Qtrunc x))%Z <-> inject_Z d <= Qmax 4 x.
Proof.
  rewrite Z.max_le_iff, Q.max_le_iff.
  assert (H4 : (d <= 4)%Z <-> inject_Z d <= 4).
  { change 4 with (inject_Z 4). rewrite <- Zle_Qle. reflexivity. }
  destruct (Z_lt_le_dec (Qnum x) 0) as [Hneg | Hpos].
  - assert (Ht : (Qtrunc x <= 0)%Z).
    { unfold Qtrunc.
      rewrite <- (Z.opp_involutive (Qnum x)), Z.quot_opp_l by discriminate.
      assert (0 <= - Qnum x ÷ Z.pos (Qden x))%Z by (apply Z.quot_pos; lia).
      lia. }
    assert (Hx : x < 0).
    { unfold Qlt. simpl. lia. }
    split.
    + intros [H | H]; [left; now apply H4|].
      left. apply H4. lia.
    + intros [H | H]; [left; now apply H4|].
      left. apply H4. apply Qle_trans with x; [exact H|].
      apply Qlt_le_weak. eapply Qlt_trans; [exact Hx | reflexivity].
  - assert (Ht : Qtrunc x = Qfloor x).
    { unfold Qtrunc, Qfloor. destruct x as [n dn]. simpl in *.
      apply Z.quot_div_nonneg; lia. }
    rewrite Ht. split.
    + intros [H | H]; [left; now apply H4|]. right.
      apply Qle_trans with (inject_Z (Qfloor x)); [| apply Qfloor_le].
      now rewrite <- Zle_Qle.
    + intros [H | H]; [left; now apply H4|]. right.
      assert (Hlt : inject_Z d < inject_Z (Qfloor x + 1)).
      { eapply Qle_lt_trans; [exact H | apply Qlt_floor]. }
      rewrite <- Zlt_Qlt in Hlt. lia.
Qed.

(** C5: for a beat that is a frame of the envelope, as the frames the
    beat tracker returns are.  The window is
    [max(4, int(median spacing / 4))], and an integer distance is within it
    exactly when it is within [max(4, median spacing / 4)]; a beat whose
    nearest onset is within the window becomes that onset; any other beat,
    and every beat when there are no onsets, becomes a position of the
    envelope's maximum within the window around the beat. *)
Theorem refine_snaps_to_onset_or_peak :
  forall (onset_env : list Q) (beat_frames onset_frames : list Z)
         (i : nat) (frame : Z),
    nth_error beat_frames i = Some frame ->
    (0 <= frame < Z.of_nat (length onset_env))%Z ->
    let w := search_window beat_frames in
    let r := nth i (refine_beats_to_onsets_advanced onset_env beat_frames
                      onset_frames) 0 in
    let near := nearest_onset onset_frames frame in
    ((2 <= length beat_frames)%nat ->
       w = Z.max 4 (Qtrunc (median (map inject_Z (diffZ beat_frames)) / 4)) /\
       forall d : Z,
         (d <= w)%Z
         <-> inject_Z d <= Qmax 4 (median (map inject_Z (diffZ beat_frames)) / 4)) /\
    (onset_frames <> [] ->
       In near onset_frames /\
       forall o, In o onset_frames ->
         (Z.abs (near - frame) <= Z.abs (o - frame))%Z) /\
    (onset_frames <> [] -> (Z.abs (near - frame) <= w)%Z -> r = inject_Z near) /\
    (onset_frames <> [] -> (w < Z.abs (near - frame))%Z ->
       exists p, r = inject_Z p /\ is_window_peak onset_env frame w p) /\
    (onset_frames = [] ->
       exists p, r = inject_Z p /\ is_window_peak onset_env frame w p).
Proof.
  intros onset_env beat_frames onset_frames i frame Hi Hin w r near.
  destruct (refine_paths onset_env beat_frames onset_frames i frame Hi)
    as (Hw & _ & Hnear & Hsnap & Hfall).
  fold w r near in Hw, Hnear, Hsnap, Hfall.
  assert (Hwin : (window_start frame w < window_end onset_env frame w)%Z).
  { assert (H4 : (4 <= w)%Z) by (unfold w, search_window; lia).
    unfold window_start, window_end. lia. }
  split; [| split; [| split; [| split]]].
  - intros Hlen. specialize (Hw Hlen). split; [exact Hw|].
    intros d. rewrite Hw. apply within_int_window.
  - exact Hnear.
  - exact Hsnap.
  - intros _ Hfar. apply (proj1 (Hfall (or_intror Hfar))). exact Hwin.
  - intros He. apply (proj1 (Hfall (or_introl He))). exact Hwin.
Qed.

(** The theorem at the second beat of a two-beat grid: the nearest onset
    is 8 frames away and the window is 4, so the beat moves to a peak of
    the envelope. *)
Lemma refine_snaps_witness :
  exists p : Z,
    nth 1 (refine_beats_to_onsets_advanced
             [1;2;3;7;3;2;1;1;1;1;1;1;1;9;1] [3%Z; 10%Z] [2%Z; 20%Z]) 0
    = inject_Z p /\
    is_window_peak [1;2;3;7;3;2;1;1;1;1;1;1;1;9;1] 10 4 p.
Proof.
  destruct (refine_snaps_to_onset_or_peak
              [1;2;3;7;3;2;1;1;1;1;1;1;1;9;1] [3%Z; 10%Z] [2%Z; 20%Z]
              1%nat 10%Z eq_refl) as (_ & _ & _ & H & _).
  - simpl. lia.
  - apply H; [discriminate | vm_compute; reflexivity].
Defined.

(** The guard of line 237 only matters for a beat that is no frame of the
    envelope: with three envelope frames and no onset a beat at 40 is left
    at 40, which is no envelope position at all. *)
Lemma refine_beat_outside_envelope :
  refine_beats_to_onsets_advanced [1; 2; 3] [40%Z] [] = [inject_Z 40] /\
  ~ exists p : Z,
      nth 0 (refine_beats_to_onsets_advanced [1; 2; 3] [40%Z] []) 0 = inject_Z p /\
      is_window_peak [1; 2; 3] 40 (search_window [40%Z]) p.
Proof.
  split; [reflexivity|].
  intros (p & _ & (Hp & Hw & _)).
  change (search_window [40%Z]) with 25%Z in Hw.
  simpl in Hp. lia.
Qed.

End RefinerFacts.

(** ** Offbeat / phase-shift detector *)

Module OffbeatFacts.
Import Offbeat.

(** *** [sorted(set(...))] *)

Lemma insert_uniq_HdRel (a x : Q) (l : list Q) :
  a < x -> HdRel Qlt a l -> HdRel Qlt a (insert_uniq x l).
Proof.
  intros Hax Hl. destruct l as [|y t]; simpl.
  - now constructor.
  - destruct (Qcompare_spec x y); inversion Hl; subst; now constructor.
Qed.

Lemma insert_uniq_Sorted (x : Q) (l : list Q) :
  Sorted Qlt l -> Sorted Qlt (insert_uniq x l).
Proof.
  induction l as [|y t IH]; intros Hs; simpl.
  - repeat constructor.
  - inversion Hs as [|? ? Ht Hhd]; subst.
    destruct (Qcompare_spec x y) as [E | Hlt | Hgt].
    + exact Hs.
    + constructor; [exact Hs | now constructor].
    + constructor; [now apply IH | now apply insert_uniq_HdRel].
Qed.

Lemma sorted_set_Sorted (l : list Q) : Sorted Qlt (sorted_set l).
Proof.
  induction l as [|x l IH]; simpl.
  - constructor.
  - now apply insert_uniq_Sorted.
Qed.

Lemma insert_uniq_InA (x y : Q) (l : list Q) :
  InA Qeq y (insert_uniq x l) <-> y == x \/ InA Qeq y l.
Proof.
  induction l as [|z t IH]; simpl.
  - rewrite InA_cons, InA_nil. tauto.
  - destruct (Qcompare_spec x z) as [E | Hlt | Hgt].
    + rewrite InA_cons. split; [tauto|].
      intros [H | H]; [left; now rewrite H | tauto].
    + rewrite !InA_cons. tauto.
    + rewrite !InA_cons, IH. tauto.
Qed.

Lemma sorted_set_InA (y : Q) (l : list Q) :
  InA Qeq y (sorted_set l) <-> InA Qeq y l.
Proof.
  induction l as [|x l IH]; simpl.
  - reflexivity.
  - rewrite insert_uniq_InA, InA_cons, IH. reflexivity.
Qed.

Lemma Sorted_Qlt_NoDupA (l : list Q) : Sorted Qlt l -> NoDupA Qeq l.
Proof.
  intros Hs. apply Sorted_StronglySorted in Hs.
  - induction Hs as [|a l Hs IH Hall]; constructor; [|exact IH].
    intros Hin. apply InA_alt in Hin. destruct Hin as (y & Hay & Hy).
    rewrite Forall_forall in Hall. specialize (Hall y Hy).
    rewrite Hay in Hall. exact (Qlt_irrefl _ Hall).
  - intros x y z. apply Qlt_trans.
Qed.

(** A list without repeated values is no longer than any list that holds
    all its values. *)
Lemma NoDupA_incl_length (l1 : list Q) :
  forall l2 : list Q,
    NoDupA Qeq l1 ->
    (forall x, InA Qeq x l1 -> InA Qeq x l2) ->
    (length l1 <= length l2)%nat.
Proof.
  induction l1 as [|x t IH]; intros l2 Hnd Hincl; simpl; [lia|].
  inversion Hnd as [|? ? Hx Ht]; subst.
  destruct (InA_split (Hincl x (InA_cons_hd t (Qeq_refl x))))
    as (u & y & v & Hxy & ->).
  rewrite length_app. simpl.
  enough (length t <= length (u ++ v))%nat by (rewrite length_app in *; lia).
  apply IH; [exact Ht|].
  intros z Hz.
  assert (Hz2 : InA Qeq z (u ++ y :: v)) by (apply Hincl; now constructor 2).
  rewrite InA_app_iff in *. rewrite InA_cons in Hz2.
  destruct Hz2 as [H | [H | H]]; [now left | | now right].
  exfalso. apply Hx. rewrite Hxy, <- H. exact Hz.
Qed.

(** *** The insertion loop only adds frames *)

Lemma list_insert_In {A : Type} (pos : nat) (x y : A) (l : list A) :
  In y l -> In y (list_insert pos x l).
Proof.
  intros H. unfold list_insert.
  rewrite <- (firstn_skipn pos l) in H.
  apply in_app_or in H. apply in_or_app.
  destruct H; [now left | right; now right].
Qed.

Lemma insert_step_In (beat_frames onset_frames : list Q) (st : list Q * nat)
    (s : shift) (y : Q) :
  In y (fst st) -> In y (fst (insert_step beat_frames onset_frames st s)).
Proof.
  destruct st as [new_beats inserted_count]. unfold insert_step.
  destruct (_ || _)%bool; [trivial|].
  destruct (Qltb 0.01 (phase s)); [|trivial].
  simpl. apply list_insert_In.
Qed.

Lemma insert_all_In (beat_frames onset_frames : list Q) (shifts : list shift)
    (y : Q) :
  In y beat_frames -> In y (insert_all beat_frames onset_frames shifts).
Proof.
  unfold insert_all.
  change beat_frames with (fst (beat_frames, 0%nat)) at 1.
  generalize (beat_frames, 0%nat) as st.
  induction shifts as [|s shifts IH]; intros st H; simpl; [exact H|].
  apply IH. now apply insert_step_In.
Qed.

(** *** Return paths *)

(** Every return path either hands back the input itself or goes through
    the final sort-and-deduplicate. *)
Lemma detect_returns_input_or_sorted_set (beat_frames onset_frames : list Q) :
  detect_and_insert_offbeats beat_frames onset_frames = beat_frames \/
  exists shifts,
    detect_and_insert_offbeats beat_frames onset_frames
    = sorted_set (insert_all beat_frames onset_frames shifts).
Proof.
  unfold detect_and_insert_offbeats.
  destruct (_ || _)%bool; [now left|].
  destruct (Qle_bool _ _); [now left|].
  destruct (_ <? 4)%nat; [now left|].
  destruct (unique_shifts _) as [|s us]; [now left|].
  right. now eexists.
Qed.

(** C7: with fewer than four beats, fewer than four onsets, or fewer than
    four onset phases, the detector returns its input as it is; the model
    is a total function, so nothing is raised on the way. *)
Theorem detect_identity_on_too_little_data :
  forall beat_frames onset_frames : list Q,
    (length beat_frames < 4 \/ length onset_frames < 4 \/
     length (onset_phases beat_frames onset_frames) < 4)%nat ->
    detect_and_insert_offbeats beat_frames onset_frames = beat_frames.
Proof.
  intros beat_frames onset_frames H. unfold detect_and_insert_offbeats.
  destruct (length beat_frames <? 4)%nat eqn:Eb; [reflexivity|].
  destruct (length onset_frames <? 4)%nat eqn:Eo; [reflexivity|].
  simpl. destruct (Qle_bool _ _); [reflexivity|].
  destruct (length (onset_phases beat_frames onset_frames) <? 4)%nat eqn:Ep;
    [reflexivity|].
  apply Nat.ltb_ge in Eb, Eo, Ep. lia.
Qed.

(** Five evenly spaced beats and five onsets, of which only three fall
    inside the grid. *)
Lemma detect_identity_witness :
  detect_and_insert_offbeats [0; 100; 200; 300; 400] [0; 250; 350; 450; 50]
  = [0; 100; 200; 300; 400].
Proof.
  apply detect_identity_on_too_little_data.
  right. right. vm_compute. lia.
Defined.

(** C1, as amended: when no frame value is repeated in the input, the
    output is at least as long as the input. *)
Theorem detect_length_ge_without_repeats :
  forall beat_frames onset_frames : list Q,
    NoDupA Qeq beat_frames ->
    (length beat_frames
     <= length (detect_and_insert_offbeats beat_frames onset_frames))%nat.
Proof.
  intros beat_frames onset_frames Hnd.
  destruct (detect_returns_input_or_sorted_set beat_frames onset_frames)
    as [-> | [shifts ->]]; [lia|].
  apply NoDupA_incl_length; [exact Hnd|].
  intros x Hx. apply sorted_set_InA.
  apply InA_alt in Hx. destruct Hx as (y & Hxy & Hy).
  apply InA_alt. exists y. split; [exact Hxy|].
  now apply insert_all_In.
Qed.

(** C2, as amended: whatever the detector returns is either its input,
    unchanged (the early return paths), or strictly increasing without
    repeated values (the final sort-and-deduplicate); so a strictly
    increasing input gives a strictly increasing output without repeated
    values on every return path. *)
Theorem detect_strictly_increasing :
  forall beat_frames onset_frames : list Q,
    (detect_and_insert_offbeats beat_frames onset_frames = beat_frames \/
     (Sorted Qlt (detect_and_insert_offbeats beat_frames onset_frames) /\
      NoDupA Qeq (detect_and_insert_offbeats beat_frames onset_frames))) /\
    (Sorted Qlt beat_frames ->
     Sorted Qlt (detect_and_insert_offbeats beat_frames onset_frames) /\
     NoDupA Qeq (detect_and_insert_offbeats beat_frames onset_frames)).
Proof.
  intros beat_frames onset_frames.
  destruct (detect_returns_input_or_sorted_set beat_frames onset_frames)
    as [E | [shifts E]]; rewrite E.
  - split; [now left|]. intros Hs.
    split; [exact Hs | now apply Sorted_Qlt_NoDupA].
  - pose proof (sorted_set_Sorted
                  (insert_all beat_frames onset_frames shifts)) as H.
    pose proof (Sorted_Qlt_NoDupA _ H) as Hnd.
    split; [right | intros _]; now split.
Qed.

(** Five distinct beats and nine onsets around the half beat of the first
    interval: one frame is inserted. *)
Lemma detect_length_witness :
  le (length [0; 100; 200; 300; 400])
     (length (detect_and_insert_offbeats [0; 100; 200; 300; 400]
                [42; 44; 46; 48; 50; 52; 54; 56; 58])).
Proof.
  apply (detect_length_ge_without_repeats [0; 100; 200; 300; 400]).
  apply Sorted_Qlt_NoDupA.
  sorted_literal.
Defined.

Lemma detect_strictly_increasing_witness :
  Sorted Qlt (detect_and_insert_offbeats [0; 100; 200; 300; 400]
                [42; 44; 46; 48; 50; 52; 54; 56; 58]) /\
  NoDupA Qeq (detect_and_insert_offbeats [0; 100; 200; 300; 400]
                [42; 44; 46; 48; 50; 52; 54; 56; 58]).
Proof.
  apply (proj2 (detect_strictly_increasing [0; 100; 200; 300; 400]
                  [42; 44; 46; 48; 50; 52; 54; 56; 58])).
  sorted_literal.
Defined.

(** C1 as stated fails on a refiner output with a repeated frame.  The
    coarse beats 298, 300 and 302 all snap to the onset at 300; the nine
    onsets around frame 50 make the detector insert one frame, and the
    final [sorted(set(...))] then drops two of the three beats at 300:
    eight beats go in, seven come out. *)
Lemma detect_shrinks_refined_beats_with_repeats :
  Refiner.refine_beats_to_onsets_advanced (repeat 0 501)
    [0; 100; 200; 298; 300; 302; 400; 500]%Z
    [0; 42; 44; 46; 48; 50; 52; 54; 56; 58; 100; 200; 300; 400; 500]%Z
  = map inject_Z [0; 100; 200; 300; 300; 300; 400; 500]%Z /\
  detect_and_insert_offbeats
    (Refiner.refine_beats_to_onsets_advanced (repeat 0 501)
       [0; 100; 200; 298; 300; 302; 400; 500]%Z
       [0; 42; 44; 46; 48; 50; 52; 54; 56; 58; 100; 200; 300; 400; 500]%Z)
    (map inject_Z
       [0; 42; 44; 46; 48; 50; 52; 54; 56; 58; 100; 200; 300; 400; 500]%Z)
  = map inject_Z [0; 50; 100; 200; 300; 400; 500]%Z /\
  lt (length
        (detect_and_insert_offbeats
           (Refiner.refine_beats_to_onsets_advanced (repeat 0 501)
              [0; 100; 200; 298; 300; 302; 400; 500]%Z
              [0; 42; 44; 46; 48; 50; 52; 54; 56; 58; 100; 200; 300; 400; 500]%Z)
           (map inject_Z
              [0; 42; 44; 46; 48; 50; 52; 54; 56; 58; 100; 200; 300; 400; 500]%Z)))
     (length
        (Refiner.refine_beats_to_onsets_advanced (repeat 0 501)
           [0; 100; 200; 298; 300; 302; 400; 500]%Z
           [0; 42; 44; 46; 48; 50; 52; 54; 56; 58; 100; 200; 300; 400; 500]%Z)).
Proof.
  split; [vm_compute; reflexivity|].
  split; [vm_compute; reflexivity|].
  vm_compute. lia.
Qed.

(** C2 as stated fails on the early return paths: three beats are too few
    to analyse, so a refiner output with a repeated frame comes back as it
    went in. *)
Lemma detect_early_return_keeps_repeats :
  detect_and_insert_offbeats [100; 300; 300] [100; 300] = [100; 300; 300] /\
  ~ Sorted Qlt (detect_and_insert_offbeats [100; 300; 300] [100; 300]).
Proof.
  split; [reflexivity|].
  change (detect_and_insert_offbeats [100; 300; 300] [100; 300])
    with [100; 300; 300].
  intros H. apply Sorted_Qlt_NoDupA in H.
  inversion H as [|? ? _ H1]; subst.
  inversion H1 as [|? ? H2 _]; subst.
  apply H2. constructor. reflexivity.
Qed.

End OffbeatFacts.

(** ** Instantaneous BPM *)

Module BpmFacts.
Import Ieee Bpm.

Lemma min_interval_pos : 0 < min_interval.
Proof. reflexivity. Qed.

Lemma beat_intervals_clamped (beat_times : list Q) :
  Forall (fun d => min_interval <= d) (beat_intervals beat_times).
Proof.
  unfold beat_intervals. apply Forall_forall. intros d Hd.
  apply in_map_iff in Hd. destruct Hd as (x & <- & _).
  apply Q.le_max_r.
Qed.

Lemma clamped_positive (d : Q) : 0 < Qmax d min_interval.
Proof.
  eapply Qlt_le_trans; [exact min_interval_pos | apply Q.le_max_r].
Qed.

Lemma clamped_not_zero (d : Q) : Qeq_bool (Qmax d min_interval) 0 = false.
Proof.
  destruct (Qeq_bool (Qmax d min_interval) 0) eqn:E; [|reflexivity].
  apply Qeq_bool_eq in E. pose proof (clamped_positive d) as H.
  rewrite E in H. discriminate H.
Qed.

(** Whatever the interval is, the divisor that replaces it is not zero
    and not below [1e-6]. *)
Lemma clamp_guards (d : fl) :
  is_zero (fl_max d (Fin min_interval)) = false /\
  fl_ltb (fl_max d (Fin min_interval)) (Fin min_interval) = false.
Proof.
  destruct d as [q| | |]; simpl; [| now split | now split | now split].
  split; [apply clamped_not_zero|].
  unfold Qltb. apply negb_false_iff. apply Qle_bool_iff. apply Q.le_max_r.
Qed.

(** On finite beat times the computation stays finite, and is [Bpm]'s. *)
Lemma fl_diff_finite (a : list Q) : fl_diff (map Fin a) = map Fin (diff a).
Proof.
  induction a as [|x [|y t] IH]; [reflexivity | reflexivity |].
  change (fl_sub (Fin y) (Fin x) :: fl_diff (map Fin (y :: t))
          = Fin (y - x) :: map Fin (diff (y :: t))).
  now rewrite IH.
Qed.

Lemma instantaneous_bpms_finite (beat_times : list Q) :
  BpmIeee.instantaneous_bpms (map Fin beat_times)
  = map Fin (instantaneous_bpms beat_times).
Proof.
  unfold BpmIeee.instantaneous_bpms, BpmIeee.beat_intervals,
    instantaneous_bpms, beat_intervals.
  rewrite fl_diff_finite, !map_map. apply map_ext. intros d. simpl.
  now rewrite clamped_not_zero.
Qed.

Lemma finite_bpms_positive (beat_times : list Q) :
  Forall (fun b => 0 < b) (instantaneous_bpms beat_times).
Proof.
  unfold instantaneous_bpms, beat_intervals. rewrite map_map.
  apply Forall_forall. intros b Hb.
  apply in_map_iff in Hb. destruct Hb as (d & <- & _).
  apply Qlt_shift_div_l; [apply clamped_positive | reflexivity].
Qed.

(** C8, as amended: every interval is at least [1e-6] when it becomes a
    divisor, so no division is by zero, whatever the beat times are; an
    interval of 0 seconds gives [60 / 1e-6], that is 60 000 000; and every
    BPM value computed from finite beat times is finite and strictly
    positive. *)
Theorem instantaneous_bpm_positive_on_finite_times :
  (forall beat_times : list fl,
     Forall (fun d => is_zero d = false /\ fl_ltb d (Fin 1e-6) = false)
            (BpmIeee.beat_intervals beat_times)) /\
  (forall beat_times : list Q,
     BpmIeee.instantaneous_bpms (map Fin beat_times)
     = map (fun d => Fin (60 / Qmax d 1e-6)) (diff beat_times) /\
     Forall (fun b => is_finite b = true /\ 0 < to_Q b)
            (BpmIeee.instantaneous_bpms (map Fin beat_times))) /\
  60 / 1e-6 == 60000000 /\
  (forall t : Q, exists b : Q,
     BpmIeee.instantaneous_bpms [Fin t; Fin t] = [Fin b] /\ b == 60 / 1e-6).
Proof.
  split; [| split; [| split]].
  - intros beat_times. unfold BpmIeee.beat_intervals.
    apply Forall_forall. intros d Hd.
    apply in_map_iff in Hd. destruct Hd as (x & <- & _).
    apply clamp_guards.
  - intros beat_times. rewrite instantaneous_bpms_finite. split.
    + unfold instantaneous_bpms, beat_intervals. now rewrite !map_map.
    + apply Forall_forall. intros b Hb.
      apply in_map_iff in Hb. destruct Hb as (q & <- & Hq).
      split; [reflexivity|]. simpl.
      pose proof (finite_bpms_positive beat_times) as Hpos.
      rewrite Forall_forall in Hpos. now apply Hpos.
  - reflexivity.
  - intros t. exists (60 / Qmax (t - t) 1e-6). split.
    + exact (instantaneous_bpms_finite [t; t]).
    + rewrite Q.max_r; [reflexivity|].
      setoid_replace (t - t) with 0 by ring. discriminate.
Qed.

(** C8 as stated fails when a beat time is not finite.  In the envelope
    [0, 0, 4e-9, 7e-9, 0] frame 3 is a strict peak at which the
    denominator of line 418 is zero: the time of that beat is [inf], the
    interval from the beat at frame 1 is [inf], and the BPM value is
    [60 / inf], which is zero and not positive.  In [0, 5e-9, 0] the offset
    of frame 1 is [0 / 0]: the time and the BPM value are [nan]. *)
Lemma instantaneous_bpm_zero_after_infinite_time :
  (Interp.is_peak [0; 0; 4e-9; 7e-9; 0] 3 = true /\
   map is_finite
     (Interp.frames_to_time_precise [1; 3] [0; 0; 4e-9; 7e-9; 0] 128 44100)
   = [true; false] /\
   nth 1 (Interp.frames_to_time_precise [1; 3] [0; 0; 4e-9; 7e-9; 0] 128 44100)
     NaN = PInf /\
   map is_zero
     (BpmIeee.instantaneous_bpms
        (Interp.frames_to_time_precise [1; 3] [0; 0; 4e-9; 7e-9; 0] 128 44100))
   = [true] /\
   map (fl_ltb (Fin 0))
     (BpmIeee.instantaneous_bpms
        (Interp.frames_to_time_precise [1; 3] [0; 0; 4e-9; 7e-9; 0] 128 44100))
   = [false]) /\
  (Interp.is_peak [0; 5e-9; 0] 1 = true /\
   BpmIeee.instantaneous_bpms
     (Interp.frames_to_time_precise [0; 1] [0; 5e-9; 0] 128 44100)
   = [NaN] /\
   map (fl_ltb (Fin 0))
     (BpmIeee.instantaneous_bpms
        (Interp.frames_to_time_precise [0; 1] [0; 5e-9; 0] 128 44100))
   = [false]).
Proof.
  repeat split; vm_compute; reflexivity.
Qed.

End BpmFacts.

(** ** Sub-frame time interpolator *)

Module InterpFacts.
Import Ieee Interp.





(** A peak that exceeds both neighbours by [eps] or more has a negative
    denominator, so the division of line 418 is a finite quotient. *)
Lemma offset_as_quotient (alpha beta gamma : Q) :
  eps <= beta - alpha -> eps <= beta - gamma ->
  0 < - (alpha - 2 * beta + gamma + eps) /\
  is_finite (parabolic_offset alpha beta gamma) = true /\
  to_Q (parabolic_offset alpha beta gamma)
  == ((1 # 2) * (gamma - alpha)) / (- (alpha - 2 * beta + gamma + eps)).
Proof.
  unfold parabolic_offset, eps. intros Ha Hc.
  assert (He : 0 < 1e-8) by reflexivity.
  assert (Hden : 0 < - (alpha - 2 * beta + gamma + 1e-8)) by lra.
  split; [exact Hden|].
  set (den := alpha - 2 * beta + gamma + 1e-8) in *.
  unfold fl_div.
  destruct (Qeq_bool den 0) eqn:E.
  - apply Qeq_bool_eq in E. rewrite E in Hden. discriminate Hden.
  - split; [reflexivity|]. simpl.
    setoid_replace 0.5 with (1 # 2) by reflexivity.
    field. intros F. rewrite F in Hden. discriminate.
Qed.







End InterpFacts.

(** ** BPM stabiliser *)

Module StabilizerFacts.
Import Stabilizer.

(** *** The merge pass *)

Lemma merge_from_length (tolerance : Q) (rest : list section) :
  forall last,
    (1 <= length (merge_from tolerance last rest) <= S (length rest))%nat.
Proof.
  induction rest as [|s rest IH]; intros last; simpl; [lia|].
  destruct (within tolerance (bpm s) (bpm last)).
  - specialize (IH (absorb last s)). lia.
  - specialize (IH s). simpl length. lia.
Qed.

(** The pass changes nothing when no two neighbours are within the
    tolerance, and removes at least one section otherwise. *)
Lemma merge_sections_fixed (tolerance : Q) (l : list section) :
  adjacent_apart tolerance l = true -> merge_sections tolerance l = l.
Proof.
  destruct l as [|a l]; [reflexivity|]. simpl merge_sections.
  revert a. induction l as [|b l IH]; intros a H; [reflexivity|].
  simpl in H. apply andb_true_iff in H. destruct H as [Hab Hrest].
  apply negb_true_iff in Hab.
  simpl. rewrite Hab. f_equal. now apply IH.
Qed.

Lemma merge_sections_shrinks (tolerance : Q) (l : list section) :
  adjacent_apart tolerance l = false ->
  (length (merge_sections tolerance l) < length l)%nat.
Proof.
  destruct l as [|a l]; [discriminate|]. simpl merge_sections.
  revert a. induction l as [|b l IH]; intros a H; [discriminate|].
  simpl in H. simpl.
  destruct (within tolerance (bpm b) (bpm a)).
  - pose proof (merge_from_length tolerance l (absorb a b)). lia.
  - simpl in H. specialize (IH b H). simpl length in *. lia.
Qed.

(** C3, as amended: a second merge pass returns what the first returned
    exactly when the first left no two neighbouring sections within the
    tolerance of each other. *)
Theorem merge_twice_same_iff_separated :
  forall (tolerance : Q) (sections : list section),
    merge_sections tolerance (merge_sections tolerance sections)
    = merge_sections tolerance sections
    <-> adjacent_apart tolerance (merge_sections tolerance sections) = true.
Proof.
  intros tolerance sections. split.
  - intros H.
    destruct (adjacent_apart tolerance (merge_sections tolerance sections))
      eqn:E; [reflexivity|].
    apply merge_sections_shrinks in E. rewrite H in E. lia.
  - apply merge_sections_fixed.
Qed.

(** C3 as stated fails on sections the scan produces with the default
    tolerance 2.  The BPM values 100, 102.5, 100.4, 101, 101 are scanned
    into three sections of BPM 100, 102.5 and 101.  The first pass keeps
    the first two apart (2.5 > 2) and merges the third into the second,
    whose BPM becomes 713/7, about 101.86; that is within 2 of 100, so a
    second pass merges the two sections the first pass returned. *)
Lemma merge_twice_differs :
  segment [0; 1; 2; 3; 4; 5] [100; 102.5; 100.4; 101; 101] 2
  = Some [mk_section 0 0 100 0; mk_section 1 1 102.5 1; mk_section 2 4 101 2] /\
  length (merge_sections 2
            [mk_section 0 0 100 0; mk_section 1 1 102.5 1; mk_section 2 4 101 2])
  = 2%nat /\
  length (merge_sections 2
            (merge_sections 2
               [mk_section 0 0 100 0; mk_section 1 1 102.5 1;
                mk_section 2 4 101 2]))
  = 1%nat /\
  merge_sections 2
    (merge_sections 2
       [mk_section 0 0 100 0; mk_section 1 1 102.5 1; mk_section 2 4 101 2])
  <> merge_sections 2
       [mk_section 0 0 100 0; mk_section 1 1 102.5 1; mk_section 2 4 101 2].
Proof.
  split; [vm_compute; reflexivity|].
  split; [vm_compute; reflexivity|].
  split; [vm_compute; reflexivity|].
  intros H. apply (f_equal (@length section)) in H.
  vm_compute in H. discriminate.
Qed.

(** *** Scenario C *)

(** C6: the BPM values 120, 120.5, 121, 150, 150.2 with tolerance 2 give
    two sections, beats 0-2 at the median 120.5 and beats 3-4 at the median
    150.1, and the output holds their two start times, the closing time
    and the two BPM values. *)
Theorem stabilize_scenario_c :
  forall t0 t1 t2 t3 t4 t5 : Q,
    exists b1 b2 : Q,
      option_map (merge_sections 2)
        (segment [t0; t1; t2; t3; t4; t5] [120; 120.5; 121; 150; 150.2] 2)
      = Some [mk_section 0 2 b1 t0; mk_section 3 4 b2 t3] /\
      stabilize_bpm_sections [t0; t1; t2; t3; t4; t5]
        [120; 120.5; 121; 150; 150.2] 2
      = Some ([t0; t3; t5], [b1; b2]) /\
      b1 = median [120; 120.5; 121] /\ b1 == 120.5 /\
      b2 = median [150; 150.2] /\ b2 == 150.1.
Proof.
  intros. eexists. eexists.
  split; [vm_compute; reflexivity|].
  split; [vm_compute; reflexivity|].
  split; [vm_compute; reflexivity|].
  split; [vm_compute; reflexivity|].
  split; vm_compute; reflexivity.
Qed.

(** *** Output shape *)

(** The scan closes every section inside [beat_times]: it returns, and
    every section it returns ends at a beat index that is not negative. *)
Lemma scan_returns (beat_times : list Q) (tolerance : Q) (rest : list Q) :
  forall i current_section_start current_section_bpms sections,
    (current_section_start < i)%nat ->
    (i + length rest <= length beat_times)%nat ->
    Forall (fun s => (0 <= end_idx s)%Z) sections ->
    exists out,
      scan beat_times tolerance rest i current_section_start
           current_section_bpms sections = Some out /\
      out <> [] /\ Forall (fun s => (0 <= end_idx s)%Z) out.
Proof.
  induction rest as [|b rest IH];
    intros i start cur sections Hstart Hlen Hends; simpl in *.
  - destruct (nth_error beat_times start) as [t|] eqn:E.
    + simpl. eexists. split; [reflexivity|]. split.
      * intros F. apply app_eq_nil in F. destruct F; discriminate.
      * apply Forall_app. split; [exact Hends|].
        repeat constructor. simpl. lia.
    + apply nth_error_None in E. lia.
  - destruct (within tolerance b (median cur)).
    + apply IH; [lia | lia | exact Hends].
    + destruct (nth_error beat_times start) as [t|] eqn:E.
      * simpl. apply IH; [lia | lia |].
        apply Forall_app. split; [exact Hends|].
        repeat constructor. simpl. lia.
      * apply nth_error_None in E. lia.
Qed.

Lemma merge_from_ends (tolerance : Q) (rest : list section) :
  forall last,
    (0 <= end_idx last)%Z ->
    Forall (fun s => (0 <= end_idx s)%Z) rest ->
    Forall (fun s => (0 <= end_idx s)%Z) (merge_from tolerance last rest).
Proof.
  induction rest as [|s rest IH]; intros last Hl Hr; simpl.
  - now repeat constructor.
  - inversion Hr as [|? ? Hs Hr']; subst.
    destruct (within tolerance (bpm s) (bpm last)).
    + apply IH; [exact Hs | exact Hr'].
    + constructor; [exact Hl | now apply IH].
Qed.

Lemma closing_time_returns (beat_times : list Q) (s : section) :
  beat_times <> [] -> (0 <= end_idx s)%Z ->
  exists t, closing_time beat_times s = Some t.
Proof.
  intros Hne Hend. unfold closing_time, py_index.
  assert (Hlen : (0 < length beat_times)%nat)
    by (destruct beat_times; [congruence | simpl; lia]).
  destruct (end_idx s + 1 <? Z.of_nat (length beat_times))%Z eqn:E.
  - apply Z.ltb_lt in E.
    assert (E0 : (0 <=? end_idx s + 1)%Z = true) by (apply Z.leb_le; lia).
    rewrite E0.
    destruct (nth_error beat_times (Z.to_nat (end_idx s + 1))) as [t|] eqn:En;
      [now exists t|].
    apply nth_error_None in En. lia.
  - change (0 <=? -1)%Z with false. cbv iota.
    assert (E1 : (- Z.of_nat (length beat_times) <=? -1)%Z = true)
      by (apply Z.leb_le; lia).
    rewrite E1.
    destruct (nth_error beat_times
                (Z.to_nat (Z.of_nat (length beat_times) + -1))) as [t|] eqn:En;
      [now exists t|].
    apply nth_error_None in En. lia.
Qed.

(** One time and one BPM value per section, and the closing time. *)
Lemma build_output_shape (beat_times : list Q) (merged : list section) :
  beat_times <> [] -> merged <> [] ->
  Forall (fun s => (0 <= end_idx s)%Z) merged ->
  exists times bpms,
    build_output beat_times merged = Some (times, bpms) /\
    length bpms = length merged /\ length times = S (length bpms).
Proof.
  intros Hbt. induction merged as [|s rest IH]; intros Hne Hends;
    [congruence|].
  inversion Hends as [|? ? Hs Hrest]; subst.
  destruct rest as [|s' rest'].
  - destruct (closing_time_returns beat_times s Hbt Hs) as [t Ht].
    simpl. rewrite Ht. simpl. now eexists; eexists.
  - destruct IH as (times & bpms & Hout & Hb & Ht); [discriminate | exact Hrest |].
    change (build_output beat_times (s :: s' :: rest'))
      with (bind (build_output beat_times (s' :: rest'))
                 (fun out => Some (time s :: fst out, bpm s :: snd out))).
    rewrite Hout. simpl.
    eexists; eexists. split; [reflexivity|]. simpl in *. lia.
Qed.

(** Whenever the scan returns, it returns at least one section. *)
Lemma scan_some_nonempty (beat_times : list Q) (tolerance : Q) (rest : list Q) :
  forall i current_section_start current_section_bpms sections out,
    scan beat_times tolerance rest i current_section_start
         current_section_bpms sections = Some out ->
    out <> [].
Proof.
  induction rest as [|b rest IH]; intros i start cur sections out H;
    simpl in H.
  - destruct (nth_error beat_times start); simpl in H; [|discriminate].
    inversion H. intros F. apply app_eq_nil in F. destruct F; discriminate.
  - destruct (within tolerance b (median cur)).
    + eapply IH; eassumption.
    + destruct (nth_error beat_times start); simpl in H; [|discriminate].
      eapply IH; eassumption.
Qed.

(** Whenever the output is built from at least one section, it has the
    shape above. *)
Lemma build_output_some_shape (beat_times : list Q) (merged : list section) :
  forall times bpms,
    merged <> [] ->
    build_output beat_times merged = Some (times, bpms) ->
    length bpms = length merged /\ length times = S (length bpms).
Proof.
  induction merged as [|s rest IH]; intros times bpms Hne H; [congruence|].
  destruct rest as [|s' rest'].
  - simpl in H. destruct (closing_time beat_times s); simpl in H;
      [|discriminate].
    inversion H. simpl. split; reflexivity.
  - change (build_output beat_times (s :: s' :: rest'))
      with (bind (build_output beat_times (s' :: rest'))
                 (fun out => Some (time s :: fst out, bpm s :: snd out))) in H.
    destruct (build_output beat_times (s' :: rest')) as [[ts bs]|];
      simpl in H; [|discriminate].
    inversion H; subst.
    destruct (IH ts bs) as [Hb Ht]; [discriminate | reflexivity |].
    simpl in *. lia.
Qed.

(** C10: with at least two BPM values, whatever the stabiliser returns
    has exactly one more time than BPM values; and it does return, with
    one BPM value per merged section, when there is a beat time for every
    BPM value (the caller passes one more time than BPM values). *)
Theorem stabilize_times_one_more_than_bpms :
  forall (beat_times bpms : list Q) (tolerance : Q),
    (2 <= length bpms)%nat ->
    (forall times out_bpms,
       stabilize_bpm_sections beat_times bpms tolerance = Some (times, out_bpms) ->
       length times = S (length out_bpms)) /\
    ((length bpms <= length beat_times)%nat ->
     exists sections times out_bpms,
       segment beat_times bpms tolerance = Some sections /\
       stabilize_bpm_sections beat_times bpms tolerance = Some (times, out_bpms) /\
       length out_bpms = length (merge_sections tolerance sections) /\
       length times = S (length out_bpms)).
Proof.
  intros beat_times bpms tolerance H2.
  unfold stabilize_bpm_sections.
  assert (E : (length bpms <? 2)%nat = false) by (apply Nat.ltb_ge; lia).
  rewrite E.
  destruct bpms as [|b0 rest]; [simpl in H2; lia|].
  assert (Hmerged : forall s ss, merge_sections tolerance (s :: ss) <> []).
  { intros s ss F. pose proof (merge_from_length tolerance ss s) as Hl.
    simpl in F. rewrite F in Hl. simpl in Hl. lia. }
  split.
  - intros times out_bpms H.
    destruct (segment beat_times (b0 :: rest) tolerance) as [sections|] eqn:Hseg;
      simpl in H; [|discriminate].
    apply scan_some_nonempty in Hseg.
    destruct sections as [|s ss]; [congruence|].
    now apply (build_output_some_shape beat_times _ _ _ (Hmerged s ss)) in H.
  - intros Hlen. simpl in Hlen.
    destruct (scan_returns beat_times tolerance rest 1 0 [b0] [])
      as (sections & Hscan & Hne & Hends); [lia | lia | constructor |].
    assert (Hseg : segment beat_times (b0 :: rest) tolerance = Some sections)
      by exact Hscan.
    rewrite Hseg. simpl bind.
    destruct sections as [|s ss]; [congruence|].
    inversion Hends as [|? ? Hs Hss]; subst.
    destruct (build_output_shape beat_times (merge_sections tolerance (s :: ss)))
      as (times & out_bpms & Hout & Hb & Ht).
    + destruct beat_times; [simpl in Hlen; lia | discriminate].
    + apply Hmerged.
    + simpl. now apply merge_from_ends.
    + exists (s :: ss), times, out_bpms. now repeat split.
Qed.

(** The six beat times and five BPM values of scenario C. *)
Lemma stabilize_times_witness :
  exists sections times out_bpms,
    segment [0; 0.5; 1; 1.5; 1.9; 2.3] [120; 120.5; 121; 150; 150.2] 2
    = Some sections /\
    stabilize_bpm_sections [0; 0.5; 1; 1.5; 1.9; 2.3]
      [120; 120.5; 121; 150; 150.2] 2 = Some (times, out_bpms) /\
    length out_bpms = length (merge_sections 2 sections) /\
    length times = S (length out_bpms).
Proof.
  apply (stabilize_times_one_more_than_bpms [0; 0.5; 1; 1.5; 1.9; 2.3]
           [120; 120.5; 121; 150; 150.2] 2); simpl; lia.
Defined.

End StabilizerFacts.

(** * Further properties of the code *)

(** ** The median lies among the data *)

Module MedianFacts.

Lemma insert_sorted_In (x y : Q) (l : list Q) :
  In y (insert_sorted x l) <-> y = x \/ In y l.
Proof.
  induction l as [|z t IH]; simpl.
  - intuition.
  - destruct (Qle_bool x z); simpl; [intuition|].
    rewrite IH. intuition.
Qed.

Lemma sort_In (y : Q) (l : list Q) : In y (sort l) <-> In y l.
Proof.
  induction l as [|x l IH]; simpl; [reflexivity|].
  rewrite insert_sorted_In, IH. intuition.
Qed.

Lemma insert_sorted_length (x : Q) (l : list Q) :
  length (insert_sorted x l) = S (length l).
Proof.
  induction l as [|z t IH]; simpl; [reflexivity|].
  destruct (Qle_bool x z); simpl; [reflexivity | now rewrite IH].
Qed.

Lemma sort_length (l : list Q) : length (sort l) = length l.
Proof.
  induction l as [|x l IH]; simpl; [reflexivity|].
  now rewrite insert_sorted_length, IH.
Qed.

Lemma half_between (lo hi a b : Q) :
  lo <= a <= hi -> lo <= b <= hi -> lo <= (a + b) / 2 <= hi.
Proof.
  intros Ha Hb. split.
  - apply Qle_shift_div_l; [reflexivity | lra].
  - apply Qle_shift_div_r; [reflexivity | lra].
Qed.

(** The median of data that lie in an interval lies in that interval. *)
Lemma median_between (lo hi : Q) (l : list Q) :
  l <> [] ->
  (forall x, In x l -> lo <= x <= hi) ->
  lo <= median l <= hi.
Proof.
  intros Hne Hall. unfold median.
  assert (Hlen : (0 < length (sort l))%nat).
  { rewrite sort_length. destruct l; [congruence | simpl; lia]. }
  assert (Hnth : forall k, (k < length (sort l))%nat ->
                   lo <= nth k (sort l) 0 <= hi).
  { intros k Hk. apply Hall. apply sort_In. now apply nth_In. }
  assert (Hhalf : (length (sort l) / 2 < length (sort l))%nat)
    by (apply Nat.div_lt; lia).
  destruct (Nat.even (length (sort l))) eqn:E.
  - apply half_between; apply Hnth; lia.
  - now apply Hnth.
Qed.

End MedianFacts.

(** ** Beat-to-onset refiner: how far a beat can move *)

Module RefinerBounds.
Import Refiner RefinerFacts.

Lemma search_window_ge_4 (beat_frames : list Z) :
  (4 <= search_window beat_frames)%Z.
Proof. unfold search_window. lia. Qed.

Lemma refine_one_near (onset_env : list Q) (onset_frames : list Z) (w frame : Z) :
  (0 <= w)%Z ->
  (Z.abs (refine_one onset_env onset_frames w frame - frame) <= w)%Z.
Proof.
  intros Hw.
  assert (Hfb : (Z.abs (peak_fallback onset_env w frame - frame) <= w)%Z).
  { destruct (Z.lt_ge_cases (window_start frame w) (window_end onset_env frame w))
      as [Hin | Hout].
    - destruct (peak_fallback_is_window_peak onset_env w frame Hin)
        as (_ & Hp & _). lia.
    - rewrite (peak_fallback_outside onset_env w frame Hout). lia. }
  unfold refine_one.
  destruct onset_frames as [|o os]; [exact Hfb|].
  change (0 <? length (o :: os))%nat with true. cbv iota.
  destruct (nearest_distance (o :: os) frame <=? w)%Z eqn:E; [|exact Hfb].
  apply Z.leb_le in E.
  destruct (nearest_onset_spec (o :: os) frame) as (_ & H2 & _);
    [discriminate|].
  now rewrite <- H2.
Qed.

(** X1: the refiner moves no beat by more than the search window, and the
    window is at least 4 frames. *)
Theorem refine_moves_within_window :
  forall (onset_env : list Q) (beat_frames onset_frames : list Z)
         (i : nat) (frame : Z),
    nth_error beat_frames i = Some frame ->
    (4 <= search_window beat_frames)%Z /\
    exists r : Z,
      nth i (refine_beats_to_onsets_advanced onset_env beat_frames onset_frames) 0
      = inject_Z r /\
      (Z.abs (r - frame) <= search_window beat_frames)%Z.
Proof.
  intros onset_env beat_frames onset_frames i frame Hi.
  pose proof (search_window_ge_4 beat_frames) as Hw.
  split; [exact Hw|].
  exists (refine_one onset_env onset_frames (search_window beat_frames) frame).
  split; [now apply refine_nth|].
  apply refine_one_near. lia.
Qed.

Lemma refine_moves_within_window_witness :
  exists r : Z,
    nth 1 (refine_beats_to_onsets_advanced
             [1;2;3;7;3;2;1;1;1;1;1;1;1;9;1] [3%Z; 10%Z] [2%Z; 20%Z]) 0
    = inject_Z r /\
    (Z.abs (r - 10) <= search_window [3%Z; 10%Z])%Z.
Proof.
  apply (refine_moves_within_window
           [1;2;3;7;3;2;1;1;1;1;1;1;1;9;1] [3%Z; 10%Z] [2%Z; 20%Z] 1%nat 10%Z).
  reflexivity.
Defined.

Lemma refine_one_on_onset (onset_env : list Q) (onset_frames : list Z)
    (w frame : Z) :
  (0 <= w)%Z -> In frame onset_frames ->
  refine_one onset_env onset_frames w frame = frame.
Proof.
  intros Hw Hin. unfold refine_one.
  destruct onset_frames as [|o os]; [destruct Hin|].
  change (0 <? length (o :: os))%nat with true. cbv iota.
  destruct (nearest_onset_spec (o :: os) frame) as (_ & H2 & H3);
    [discriminate|].
  specialize (H3 frame Hin).
  assert (E : nearest_onset (o :: os) frame = frame) by lia.
  rewrite H2, E.
  replace (Z.abs (frame - frame) <=? w)%Z with true
    by (symmetry; apply Z.leb_le; lia).
  reflexivity.
Qed.

(** X2: beats that already sit on onsets are left where they are; a beat
    grid made of onsets only comes back unchanged, whatever the envelope
    is. *)
Theorem refine_fixes_beats_on_onsets :
  forall (onset_env : list Q) (beat_frames onset_frames : list Z),
    (forall frame, In frame beat_frames -> In frame onset_frames) ->
    refine_beats_to_onsets_advanced onset_env beat_frames onset_frames
    = map inject_Z beat_frames.
Proof.
  intros onset_env beat_frames onset_frames H.
  unfold refine_beats_to_onsets_advanced.
  apply map_ext_in. intros frame Hf. f_equal.
  apply refine_one_on_onset; [| now apply H].
  pose proof (search_window_ge_4 beat_frames). lia.
Qed.

Lemma refine_fixes_beats_on_onsets_witness :
  refine_beats_to_onsets_advanced [0; 1; 0; 5; 0; 0; 2]
    [2%Z; 5%Z] [0%Z; 2%Z; 5%Z; 6%Z]
  = map inject_Z [2%Z; 5%Z].
Proof.
  apply refine_fixes_beats_on_onsets.
  intros frame [<- | [<- | []]]; simpl; tauto.
Defined.

End RefinerBounds.

(** ** Offbeat / phase-shift detector: phases, events and inserted frames *)

Module OffbeatInvariants.
Import Offbeat OffbeatFacts.

Lemma onset_phase_spec (beat_frames : list Q) (onset ph : Q) (idx : Z) :
  onset_phase beat_frames onset = Some (ph, idx) ->
  0 <= ph /\ ph < 1 /\
  (0 <= idx < Z.of_nat (length beat_frames) - 1)%Z /\
  nth (Z.to_nat idx) beat_frames 0 < nth (Z.to_nat (idx + 1)) beat_frames 0.
Proof.
  unfold onset_phase.
  set (i := (Z.of_nat (searchsorted beat_frames onset) - 1)%Z).
  destruct ((0 <=? i) && (i <? Z.of_nat (length beat_frames) - 1))%Z eqn:Ei;
    [|discriminate].
  apply andb_true_iff in Ei. destruct Ei as [E0 E1].
  apply Z.leb_le in E0. apply Z.ltb_lt in E1.
  destruct (Qltb 0 _) eqn:El; [|discriminate].
  apply Qltb_lt in El.
  intros H.
  match type of H with context [Qfloor ?e] => set (x := e) in * end.
  assert (Hph : ph = x - inject_Z (Qfloor x)) by congruence.
  assert (Hidx : idx = i) by congruence.
  rewrite Hph, Hidx. clear H Hph Hidx.
  pose proof (Qfloor_le x) as Hlo.
  pose proof (Qlt_floor x) as Hhi.
  rewrite inject_Z_plus in Hhi.
  change (inject_Z 1) with 1 in Hhi.
  repeat split; try lra; lia.
Qed.

(** X3: every onset phase lies in [0, 1), and it is taken in a beat
    interval of the grid whose length is positive; no more phases are
    kept than there are onsets. *)
Theorem onset_phases_in_unit_interval :
  forall beat_frames onset_frames : list Q,
    (length (onset_phases beat_frames onset_frames) <= length onset_frames)%nat /\
    Forall (fun pb =>
              0 <= fst pb /\ fst pb < 1 /\
              (0 <= snd pb < Z.of_nat (length beat_frames) - 1)%Z /\
              nth (Z.to_nat (snd pb)) beat_frames 0
              < nth (Z.to_nat (snd pb + 1)) beat_frames 0)
           (onset_phases beat_frames onset_frames).
Proof.
  intros beat_frames onset_frames.
  induction onset_frames as [|onset rest [IHl IHf]]; simpl.
  - split; [lia | constructor].
  - destruct (onset_phase beat_frames onset) as [[ph idx]|] eqn:E.
    + split; [simpl; lia|]. constructor; [|exact IHf].
      exact (onset_phase_spec beat_frames onset ph idx E).
    + split; [lia | exact IHf].
Qed.

Lemma phase_shifts_few (pb : list (Q * Z)) :
  (length pb <= window_size)%nat -> phase_shifts pb = [].
Proof.
  intros H. unfold phase_shifts.
  replace (length pb - window_size)%nat with 0%nat by lia.
  reflexivity.
Qed.

(** X4: the detector needs more than one full window of phases: with at
    most eight onset phases, or with a median beat spacing that is not
    positive, it returns its input as it is. *)
Theorem detect_identity_without_full_window :
  forall beat_frames onset_frames : list Q,
    median (diff beat_frames) <= 0 \/
    (length (onset_phases beat_frames onset_frames) <= 8)%nat ->
    detect_and_insert_offbeats beat_frames onset_frames = beat_frames.
Proof.
  intros beat_frames onset_frames H. unfold detect_and_insert_offbeats.
  destruct (_ || _)%bool; [reflexivity|].
  destruct (Qle_bool (median (diff beat_frames)) 0) eqn:Em; [reflexivity|].
  destruct H as [H | H].
  - apply Qle_bool_iff in H. congruence.
  - destruct (_ <? 4)%nat; [reflexivity|].
    now rewrite (phase_shifts_few _ H).
Qed.

(** Eight onsets at the half beat of the first interval: a full window,
    but no second one to compare it with. *)
Lemma detect_identity_without_full_window_witness :
  detect_and_insert_offbeats [0; 100; 200; 300; 400]
    [42; 44; 46; 48; 50; 52; 54; 56]
  = [0; 100; 200; 300; 400].
Proof.
  apply detect_identity_without_full_window.
  right. vm_compute. lia.
Defined.

(** X5: the detector drops no beat value: every frame of the input is
    still a frame of the output. *)
Theorem detect_keeps_every_beat :
  forall beat_frames onset_frames : list Q,
    Forall (fun x =>
              InA Qeq x (detect_and_insert_offbeats beat_frames onset_frames))
           beat_frames.
Proof.
  intros beat_frames onset_frames. apply Forall_forall. intros x Hx.
  destruct (detect_returns_input_or_sorted_set beat_frames onset_frames)
    as [-> | [shifts ->]].
  - apply In_InA; [exact Q_Setoid | exact Hx].
  - apply sorted_set_InA. apply In_InA; [exact Q_Setoid|].
    now apply insert_all_In.
Qed.

End OffbeatInvariants.

(** ** Offbeat / phase-shift detector: what is inserted, and how much *)

Module OffbeatInsertions.
Import Offbeat OffbeatEvents OffbeatFacts.

Lemma detect_cases (beat_frames onset_frames : list Q) :
  detect_and_insert_offbeats beat_frames onset_frames = beat_frames \/
  detect_and_insert_offbeats beat_frames onset_frames
  = sorted_set
      (insert_all beat_frames onset_frames
         (sort_shifts
            (unique_shifts
               (phase_shifts (onset_phases beat_frames onset_frames))))).
Proof.
  unfold detect_and_insert_offbeats.
  destruct (_ || _)%bool; [now left|].
  destruct (Qle_bool _ _); [now left|].
  destruct (_ <? 4)%nat; [now left|].
  destruct (unique_shifts _) as [|s us]; [now left | now right].
Qed.

(** *** Events *)

Lemma seen_In (k : Z) (seen : list Z) :
  existsb (Z.eqb k) seen = true <-> In k seen.
Proof.
  rewrite existsb_exists. split.
  - intros (x & Hx & E). apply Z.eqb_eq in E. now subst.
  - intros H. exists k. split; [exact H | apply Z.eqb_refl].
Qed.

Lemma unique_from_spec (l : list shift) :
  forall seen,
    NoDup (map beat_idx (unique_from seen l)) /\
    (forall s, In s (unique_from seen l) -> In s l /\ ~ In (beat_idx s) seen).
Proof.
  induction l as [|s l IH]; intros seen; simpl.
  - split; [constructor | intros s []].
  - destruct (existsb (Z.eqb (beat_idx s)) seen) eqn:E.
    + destruct (IH seen) as [Hnd Hin]. split; [exact Hnd|].
      intros x Hx. destruct (Hin x Hx). tauto.
    + destruct (IH (beat_idx s :: seen)) as [Hnd Hin]. split.
      * simpl. constructor; [|exact Hnd].
        intros Hs. apply in_map_iff in Hs. destruct Hs as (x & Ex & Hx).
        destruct (Hin x Hx) as [_ Hn]. apply Hn. left. now symmetry.
      * intros x [<- | Hx].
        -- split; [now left|]. intros Hs. apply seen_In in Hs. congruence.
        -- destruct (Hin x Hx) as [H1 H2]. split; [now right|].
           intros Hs. apply H2. now right.
Qed.

Lemma insert_shift_perm (s : shift) (l : list shift) :
  Permutation (insert_shift s l) (s :: l).
Proof.
  induction l as [|y t IH]; simpl; [reflexivity|].
  destruct (beat_idx y <? beat_idx s)%Z; [|reflexivity].
  rewrite IH. apply perm_swap.
Qed.

Lemma sort_shifts_perm (l : list shift) : Permutation (sort_shifts l) l.
Proof.
  induction l as [|s l IH]; simpl; [reflexivity|].
  rewrite insert_shift_perm. now constructor.
Qed.

(** Every event carries one of the three offbeat phases, or phase 0 (the
    return to the beat). *)
Lemma phase_shifts_phases (pb : list (Q * Z)) :
  Forall (fun s => phase s = 0 \/ In (phase s) offbeat_phases) (phase_shifts pb).
Proof.
  unfold phase_shifts. apply Forall_forall. intros s Hs.
  apply in_flat_map in Hs. destruct Hs as (i & _ & Hs).
  apply in_app_or in Hs. destruct Hs as [Hs | Hs].
  - apply in_flat_map in Hs. destruct Hs as (ob & Hob & Hs).
    unfold offbeat_events in Hs.
    destruct (Qltb 0.6 _); [|destruct Hs].
    destruct (window_size <=? i)%nat.
    + destruct (Qltb _ 0.4); [|destruct Hs].
      destruct Hs as [<- | []]. now right.
    + destruct (i =? 0)%nat; [|destruct Hs].
      destruct Hs as [<- | []]. now right.
  - unfold onbeat_events in Hs.
    destruct (_ && _)%bool; [|destruct Hs].
    destruct (existsb _ _); [|destruct Hs].
    destruct Hs as [<- | []]. now left.
Qed.

Lemma final_shifts_spec (pb : list (Q * Z)) :
  NoDup (map beat_idx (sort_shifts (unique_shifts (phase_shifts pb)))) /\
  Forall (fun s => phase s = 0 \/ In (phase s) offbeat_phases)
         (sort_shifts (unique_shifts (phase_shifts pb))).
Proof.
  destruct (unique_from_spec (phase_shifts pb) []) as [Hnd Hin].
  fold (unique_shifts (phase_shifts pb)) in Hnd, Hin.
  pose proof (sort_shifts_perm (unique_shifts (phase_shifts pb))) as Hp.
  split.
  - eapply Permutation_NoDup; [|exact Hnd].
    apply Permutation_map. now symmetry.
  - apply Forall_forall. intros s Hs.
    apply (Permutation_in _ Hp) in Hs. apply Hin in Hs.
    pose proof (phase_shifts_phases pb) as Hph.
    rewrite Forall_forall in Hph. now apply Hph.
Qed.

(** *** Counting the insertions *)

Lemma list_insert_length {A : Type} (pos : nat) (x : A) (l : list A) :
  length (list_insert pos x l) = S (length l).
Proof.
  unfold list_insert. rewrite length_app. simpl.
  rewrite Nat.add_succ_r, <- length_app, firstn_skipn. reflexivity.
Qed.

Lemma insert_all_length (beat_frames onset_frames : list Q) (shifts : list shift) :
  length (insert_all beat_frames onset_frames shifts)
  = (length beat_frames + length (filter (inserts beat_frames) shifts))%nat.
Proof.
  unfold insert_all.
  enough (H : forall st,
             length (fst (fold_left (insert_step beat_frames onset_frames)
                            shifts st))
             = (length (fst st)
                + length (filter (inserts beat_frames) shifts))%nat)
    by apply H.
  induction shifts as [|s shifts IH]; intros [new_beats n]; simpl; [lia|].
  rewrite IH. unfold inserts at 2.
  destruct (_ || _)%bool; simpl; [lia|].
  destruct (Qltb 0.01 (phase s)); simpl; [|lia].
  rewrite list_insert_length. lia.
Qed.

Lemma insert_uniq_length (x : Q) (l : list Q) :
  (length (insert_uniq x l) <= S (length l))%nat.
Proof.
  induction l as [|y t IH]; simpl; [lia|].
  destruct (x ?= y); simpl; lia.
Qed.

Lemma sorted_set_length (l : list Q) : (length (sorted_set l) <= length l)%nat.
Proof.
  induction l as [|x l IH]; simpl; [lia|].
  pose proof (insert_uniq_length x (sorted_set l)). lia.
Qed.

(** Dropping events keeps the beat indices distinct. *)
Lemma filter_keeps_distinct_indices (keep : shift -> bool) (shifts : list shift) :
  NoDup (map beat_idx shifts) -> NoDup (map beat_idx (filter keep shifts)).
Proof.
  intros Hnd. induction shifts as [|s shifts IH]; simpl; [constructor|].
  simpl in Hnd. apply NoDup_cons_iff in Hnd. destruct Hnd as [Hfresh Hnd].
  destruct (keep s); simpl; [|now apply IH].
  apply NoDup_cons; [|now apply IH].
  intros Hin. apply Hfresh.
  apply in_map_iff in Hin. destruct Hin as (x & E & Hx).
  apply filter_In in Hx. apply in_map_iff. exists x. tauto.
Qed.

(** Events with different beat indices inside the grid: there are fewer
    of them than beats. *)
Lemma inserting_shifts_few (beat_frames : list Q) (shifts : list shift) :
  NoDup (map beat_idx shifts) ->
  (length (filter (inserts beat_frames) shifts) <= length beat_frames - 1)%nat.
Proof.
  intros Hnd.
  apply (filter_keeps_distinct_indices (inserts beat_frames)) in Hnd.
  rewrite <- (length_map beat_idx).
  assert (Hlen : length (map Z.of_nat (seq 0 (length beat_frames - 1)))
                 = (length beat_frames - 1)%nat)
    by (now rewrite length_map, length_seq).
  etransitivity; [| apply Nat.eq_le_incl; exact Hlen].
  apply NoDup_incl_length; [exact Hnd|].
  intros k Hk. apply in_map_iff in Hk. destruct Hk as (s & <- & Hs).
  apply filter_In in Hs. destruct Hs as [_ Hs].
  unfold inserts in Hs. apply andb_true_iff in Hs. destruct Hs as [Hr _].
  apply negb_true_iff in Hr. apply orb_false_iff in Hr.
  destruct Hr as [H0 H1]. apply Z.ltb_ge in H0. apply Z.leb_gt in H1.
  apply in_map_iff. exists (Z.to_nat (beat_idx s)).
  split; [lia|]. apply in_seq. lia.
Qed.

(** X6: at most one frame is inserted per beat interval: the output has
    at most [length beat_frames - 1] frames more than the input. *)
Theorem detect_length_upper_bound :
  forall beat_frames onset_frames : list Q,
    (length (detect_and_insert_offbeats beat_frames onset_frames)
     <= length beat_frames + (length beat_frames - 1))%nat.
Proof.
  intros beat_frames onset_frames.
  destruct (detect_cases beat_frames onset_frames) as [-> | ->]; [lia|].
  etransitivity; [apply sorted_set_length|].
  rewrite insert_all_length.
  destruct (final_shifts_spec (onset_phases beat_frames onset_frames))
    as [Hnd _].
  pose proof (inserting_shifts_few beat_frames _ Hnd). lia.
Qed.

(** *** Where the frames of the output come from *)

Lemma list_insert_In_inv {A : Type} (pos : nat) (x y : A) (l : list A) :
  In y (list_insert pos x l) -> y = x \/ In y l.
Proof.
  unfold list_insert. intros H. apply in_app_or in H.
  rewrite <- (firstn_skipn pos l) at 1.
  destruct H as [H | [H | H]].
  - right. apply in_or_app. now left.
  - left. now symmetry.
  - right. apply in_or_app. now right.
Qed.

Lemma insert_all_In_inv (beat_frames onset_frames : list Q)
    (shifts : list shift) (y : Q) :
  In y (insert_all beat_frames onset_frames shifts) ->
  In y beat_frames \/
  exists s, In s shifts /\ inserts beat_frames s = true /\
            y = offbeat_frame beat_frames onset_frames s.
Proof.
  unfold insert_all.
  enough (H : forall st,
             In y (fst (fold_left (insert_step beat_frames onset_frames)
                          shifts st)) ->
             In y (fst st) \/
             exists s, In s shifts /\ inserts beat_frames s = true /\
                       y = offbeat_frame beat_frames onset_frames s)
    by apply H.
  induction shifts as [|s shifts IH]; intros [new_beats n] Hy; simpl in *;
    [now left|].
  apply IH in Hy. destruct Hy as [Hy | (s' & Hs' & Hi & E)].
  - destruct (_ || _)%bool eqn:Er; simpl in *; [now left|].
    destruct (Qltb 0.01 (phase s)) eqn:Ep; simpl in *; [|now left].
    apply list_insert_In_inv in Hy. destruct Hy as [-> | Hy]; [|now left].
    right. exists s. unfold inserts. rewrite Er, Ep. auto.
  - right. exists s'. auto.
Qed.

Lemma insert_uniq_In_inv (x y : Q) (l : list Q) :
  In y (insert_uniq x l) -> y = x \/ In y l.
Proof.
  induction l as [|z t IH]; simpl.
  - intuition.
  - destruct (x ?= z); simpl; intuition.
Qed.

Lemma sorted_set_In_inv (y : Q) (l : list Q) :
  In y (sorted_set l) -> In y l.
Proof.
  induction l as [|x l IH]; simpl; [trivial|].
  intros H. apply insert_uniq_In_inv in H. intuition.
Qed.

Lemma argmin_lt_length (l : list Q) : l <> [] -> (argmin l < length l)%nat.
Proof.
  intros H. unfold argmin.
  destruct (first_best_spec Qltb (fun _ _ : Q => True) (fun _ => I)
              (fun _ _ _ _ _ => I) (fun _ _ _ => I) (fun _ _ _ => I) 0 l H)
    as [Hlt _].
  exact Hlt.
Qed.

(** The frame an inserting event adds: an onset, or the point of the beat
    interval at the event's phase. *)
Lemma offbeat_frame_spec (beat_frames onset_frames : list Q) (s : shift) :
  inserts beat_frames s = true ->
  In (offbeat_frame beat_frames onset_frames s) onset_frames \/
  exists i : nat,
    (S i < length beat_frames)%nat /\
    offbeat_frame beat_frames onset_frames s
    = nth i beat_frames 0
      + phase s * (nth (S i) beat_frames 0 - nth i beat_frames 0).
Proof.
  intros Hi. unfold inserts in Hi.
  apply andb_true_iff in Hi. destruct Hi as [Hr _].
  apply negb_true_iff in Hr. apply orb_false_iff in Hr.
  destruct Hr as [H0 H1]. apply Z.ltb_ge in H0. apply Z.leb_gt in H1.
  assert (Htheory :
            exists i : nat,
              (S i < length beat_frames)%nat /\
              nth (Z.to_nat (beat_idx s)) beat_frames 0
              + phase s * (nth (Z.to_nat (beat_idx s + 1)) beat_frames 0
                           - nth (Z.to_nat (beat_idx s)) beat_frames 0)
              = nth i beat_frames 0
                + phase s * (nth (S i) beat_frames 0 - nth i beat_frames 0)).
  { exists (Z.to_nat (beat_idx s)). split; [lia|].
    replace (Z.to_nat (beat_idx s + 1)) with (S (Z.to_nat (beat_idx s))) by lia.
    reflexivity. }
  unfold offbeat_frame.
  destruct onset_frames as [|o os]; [now right|].
  set (d := map _ (o :: os)).
  change (0 <? length d)%nat with true. cbv iota.
  destruct (Qltb (nth (argmin d) d 0) _); [|now right].
  left. apply nth_In.
  assert (Hd : length d = length (o :: os)) by apply length_map.
  rewrite <- Hd. apply argmin_lt_length. discriminate.
Qed.

(** X7: the detector invents no other frames: every frame it returns is a
    beat of the input, an onset, or the point at phase 0.5, 0.25 or 0.75
    of an interval between two consecutive input beats. *)
Theorem detect_frames_origin :
  forall beat_frames onset_frames : list Q,
    Forall (fun y =>
              In y beat_frames \/ In y onset_frames \/
              exists (i : nat) (ph : Q),
                In ph offbeat_phases /\ (S i < length beat_frames)%nat /\
                y = nth i beat_frames 0
                    + ph * (nth (S i) beat_frames 0 - nth i beat_frames 0))
           (detect_and_insert_offbeats beat_frames onset_frames).
Proof.
  intros beat_frames onset_frames. apply Forall_forall. intros y Hy.
  destruct (detect_cases beat_frames onset_frames) as [E | E];
    rewrite E in Hy; [now left|].
  apply sorted_set_In_inv, insert_all_In_inv in Hy.
  destruct Hy as [Hy | (s & Hs & Hi & ->)]; [now left|].
  right.
  destruct (final_shifts_spec (onset_phases beat_frames onset_frames))
    as [_ Hph].
  rewrite Forall_forall in Hph. specialize (Hph s Hs).
  destruct (offbeat_frame_spec beat_frames onset_frames s Hi)
    as [Ho | (i & Hlen & Ei)]; [now left|].
  right. exists i, (phase s). split; [|now split].
  destruct Hph as [E0 | Hin]; [|exact Hin].
  unfold inserts in Hi. apply andb_true_iff in Hi. destruct Hi as [_ Hp].
  rewrite E0 in Hp. discriminate.
Qed.

End OffbeatInsertions.

(** ** Sub-frame time interpolator: the offset at a clear peak *)

Module InterpDirection.
Import Ieee Interp InterpFacts.

(** X8: in an envelope with values between 0 and 1, at a peak that
    exceeds both neighbours by [eps] or more, the offset is a finite
    number within half a frame that does not point away from the larger
    neighbour, and it is zero when the neighbours are equal. *)
Theorem parabolic_offset_at_clear_peak :
  forall alpha beta gamma : Q,
    0 <= alpha -> 0 <= gamma -> beta <= 1 ->
    eps <= beta - alpha -> eps <= beta - gamma ->
    is_finite (parabolic_offset alpha beta gamma) = true /\
    - (1 # 2) <= to_Q (parabolic_offset alpha beta gamma) <= 1 # 2 /\
    (alpha <= gamma -> 0 <= to_Q (parabolic_offset alpha beta gamma)) /\
    (gamma <= alpha -> to_Q (parabolic_offset alpha beta gamma) <= 0) /\
    (alpha == gamma -> to_Q (parabolic_offset alpha beta gamma) == 0).
Proof.
  intros alpha beta gamma _ _ _ Ha Hc.
  destruct (offset_as_quotient alpha beta gamma Ha Hc) as (Hden & Hfin & E).
  split; [exact Hfin|].
  rewrite E. unfold eps in *.
  assert (He : 0 < 1e-8) by reflexivity.
  split; [split | split; [| split]].
  - apply Qle_shift_div_l; [exact Hden | lra].
  - apply Qle_shift_div_r; [exact Hden | lra].
  - intros H. apply Qle_shift_div_l; [exact Hden | lra].
  - intros H. apply Qle_shift_div_r; [exact Hden | lra].
  - intros H. rewrite H.
    setoid_replace (gamma - gamma) with 0 by ring.
    unfold Qdiv. ring.
Qed.

(** Scenario A of the specification, scaled into the unit interval: the
    symmetric peak [1/4, 3/4, 1/4] has offset zero. *)
Lemma parabolic_offset_at_clear_peak_witness :
  is_finite (parabolic_offset 0.25 0.75 0.25) = true /\
  to_Q (parabolic_offset 0.25 0.75 0.25) == 0.
Proof.
  destruct (parabolic_offset_at_clear_peak 0.25 0.75 0.25)
    as (Hfin & _ & _ & _ & Hzero);
    [discriminate | discriminate | discriminate | discriminate | discriminate |].
  split; [exact Hfin | apply Hzero; reflexivity].
Defined.

End InterpDirection.

(** ** Instantaneous BPM: bounds *)

Module BpmBounds.
Import Bpm BpmFacts.

Lemma diff_length (a : list Q) : length (diff a) = (length a - 1)%nat.
Proof.
  induction a as [|x [|y t] IH]; simpl in *; [reflexivity | reflexivity | lia].
Qed.

Lemma instantaneous_bpms_bounds (beat_times : list Q) :
  Forall (fun b => 0 < b /\ b <= 60000000) (instantaneous_bpms beat_times).
Proof.
  unfold instantaneous_bpms. apply Forall_forall. intros b Hb.
  apply in_map_iff in Hb. destruct Hb as (d & <- & Hd).
  pose proof (beat_intervals_clamped beat_times) as Hc.
  rewrite Forall_forall in Hc. specialize (Hc d Hd).
  pose proof min_interval_pos as Hpos.
  assert (Hd0 : 0 < d) by (eapply Qlt_le_trans; eassumption).
  split.
  - apply Qlt_shift_div_l; [exact Hd0 | reflexivity].
  - apply Qle_shift_div_r; [exact Hd0|].
    unfold min_interval in Hc.
    setoid_replace 60 with (60000000 * 1e-6) by reflexivity.
    apply Qmult_le_l; [reflexivity | exact Hc].
Qed.

(** X10: there is one BPM value per pair of consecutive beat times, and
    because of the clamp none exceeds 60 000 000. *)
Theorem instantaneous_bpms_count_and_ceiling :
  forall beat_times : list Q,
    length (instantaneous_bpms beat_times) = (length beat_times - 1)%nat /\
    Forall (fun b => b <= 60000000) (instantaneous_bpms beat_times).
Proof.
  intros beat_times. split.
  - unfold instantaneous_bpms, beat_intervals.
    now rewrite !length_map, diff_length.
  - eapply Forall_impl; [| apply instantaneous_bpms_bounds].
    intros b [_ H]. exact H.
Qed.

End BpmBounds.

(** ** BPM stabiliser: the sections tile the beats *)

Module StabilizerInvariants.
Import Stabilizer Sections StabilizerFacts MedianFacts.

Lemma tiling_head (beat_times : list Q) (lo hi : Z) (l : list section) :
  tiling beat_times lo l hi ->
  exists s l',
    l = s :: l' /\ start_idx s = lo /\ (0 <= lo <= hi)%Z /\
    nth_error beat_times (Z.to_nat lo) = Some (time s).
Proof.
  induction 1 as [s H0 Ht | s l hi H0 Ht Hrest IH].
  - exists s, []. repeat split; try lia. exact Ht.
  - destruct IH as (s' & l' & _ & _ & Hle & _).
    exists s, l. repeat split; try lia. exact Ht.
Qed.

Lemma tiling_app (beat_times : list Q) (a b c : Z) (l l' : list section) :
  tiling beat_times a l b -> tiling beat_times (b + 1) l' c ->
  tiling beat_times a (l ++ l') c.
Proof.
  induction 1 as [s H0 Ht | s l hi H0 Ht Hrest IH]; intros H'; simpl.
  - now apply tiling_cons.
  - apply tiling_cons; [exact H0 | exact Ht | now apply IH].
Qed.

(** The section the scan closes, after the sections closed before it. *)
Lemma tiling_close (beat_times : list Q) (sections : list section)
    (start i : nat) (m t : Q) :
  (start < i)%nat ->
  nth_error beat_times start = Some t ->
  (sections = [] /\ start = 0%nat) \/
  tiling beat_times 0 sections (Z.of_nat start - 1) ->
  tiling beat_times 0
    (sections ++ [mk_section (Z.of_nat start) (Z.of_nat i - 1) m t])
    (Z.of_nat i - 1).
Proof.
  intros Hlt Ht Hinv.
  set (s := mk_section (Z.of_nat start) (Z.of_nat i - 1) m t).
  assert (Hs : tiling beat_times (start_idx s) [s] (end_idx s)).
  { apply tiling_last; simpl; [lia|]. now rewrite Nat2Z.id. }
  simpl in Hs.
  destruct Hinv as [[-> ->] | Hinv]; [exact Hs|].
  apply (tiling_app beat_times 0 (Z.of_nat start - 1)); [exact Hinv|].
  replace (Z.of_nat start - 1 + 1)%Z with (Z.of_nat start) by lia.
  exact Hs.
Qed.

Lemma scan_tiling (beat_times : list Q) (tolerance : Q) (rest : list Q) :
  forall i start cur sections out,
    (start < i)%nat ->
    (sections = [] /\ start = 0%nat) \/
    tiling beat_times 0 sections (Z.of_nat start - 1) ->
    scan beat_times tolerance rest i start cur sections = Some out ->
    tiling beat_times 0 out (Z.of_nat (i + length rest) - 1).
Proof.
  induction rest as [|b rest IH]; intros i start cur sections out Hlt Hinv H;
    simpl in H.
  - destruct (nth_error beat_times start) as [t|] eqn:Et; simpl in H;
      [|discriminate].
    inversion H; subst. rewrite Nat.add_0_r.
    now apply tiling_close.
  - simpl length. rewrite Nat.add_succ_r, <- Nat.add_succ_l.
    destruct (within tolerance b (median cur)).
    + eapply IH; [| exact Hinv | exact H]. lia.
    + destruct (nth_error beat_times start) as [t|] eqn:Et; simpl in H;
        [|discriminate].
      eapply IH; [| | exact H]; [lia|].
      right. now apply tiling_close.
Qed.

Lemma merge_from_tiling (beat_times : list Q) (tolerance : Q)
    (rest : list section) :
  forall last lo hi,
    tiling beat_times lo (last :: rest) hi ->
    tiling beat_times lo (merge_from tolerance last rest) hi.
Proof.
  induction rest as [|s rest IH]; intros last lo hi H; simpl; [exact H|].
  inversion H as [| ? ? ? H0 Ht Hrest]; subst.
  destruct (tiling_head _ _ _ _ Hrest) as (s' & l' & E & Hstart & Hle & _).
  inversion E; subst s' l'.
  destruct (within tolerance (bpm s) (bpm last)).
  - apply IH.
    inversion Hrest as [? H0s Hts | ? ? ? H0s Hts Hrest']; subst.
    + apply (tiling_last beat_times (absorb last s)); simpl; [lia | exact Ht].
    + apply (tiling_cons beat_times (absorb last s)); simpl;
        [lia | exact Ht | exact Hrest'].
  - apply tiling_cons; [exact H0 | exact Ht | now apply IH].
Qed.

Lemma segment_tiling (beat_times bpms : list Q) (tolerance : Q)
    (sections : list section) :
  segment beat_times bpms tolerance = Some sections ->
  tiling beat_times 0 sections (Z.of_nat (length bpms) - 1).
Proof.
  intros H. destruct bpms as [|b0 rest]; [discriminate|].
  apply (scan_tiling beat_times tolerance rest 1 0 [b0] [] sections);
    [lia | now left | exact H].
Qed.

Lemma merge_sections_tiling (beat_times : list Q) (tolerance : Q)
    (sections : list section) (lo hi : Z) :
  tiling beat_times lo sections hi ->
  tiling beat_times lo (merge_sections tolerance sections) hi.
Proof.
  intros Ht. destruct (tiling_head _ _ _ _ Ht) as (s & l & -> & _).
  now apply merge_from_tiling.
Qed.

(** X11: the sections the scan produces, and the sections the merge pass
    leaves, cut the beat indices [0 .. len(bpms) - 1] into consecutive
    ranges without gap or overlap; no range is empty ([end_idx >=
    start_idx]) and each section carries the time of its first beat. *)
Theorem sections_tile_the_beats :
  forall (beat_times bpms : list Q) (tolerance : Q) (sections : list section),
    segment beat_times bpms tolerance = Some sections ->
    tiling beat_times 0 sections (Z.of_nat (length bpms) - 1) /\
    tiling beat_times 0 (merge_sections tolerance sections)
           (Z.of_nat (length bpms) - 1).
Proof.
  intros beat_times bpms tolerance sections H.
  pose proof (segment_tiling _ _ _ _ H) as Ht.
  split; [exact Ht | now apply merge_sections_tiling].
Qed.

Lemma sections_tile_the_beats_witness :
  tiling [0; 1; 2; 3; 4; 5] 0
    [mk_section 0 0 100 0; mk_section 1 1 102.5 1; mk_section 2 4 101 2] 4.
Proof.
  apply (sections_tile_the_beats [0; 1; 2; 3; 4; 5]
           [100; 102.5; 100.4; 101; 101] 2).
  vm_compute. reflexivity.
Defined.

(** *** Number of timing points *)

Lemma scan_length (beat_times : list Q) (tolerance : Q) (rest : list Q) :
  forall i start cur sections out,
    scan beat_times tolerance rest i start cur sections = Some out ->
    (length out <= length sections + S (length rest))%nat.
Proof.
  induction rest as [|b rest IH]; intros i start cur sections out H;
    simpl in H.
  - destruct (nth_error beat_times start); simpl in H; [|discriminate].
    inversion H. rewrite length_app. simpl. lia.
  - destruct (within tolerance b (median cur)).
    + apply IH in H. simpl. lia.
    + destruct (nth_error beat_times start); simpl in H; [|discriminate].
      apply IH in H. rewrite length_app in H. simpl in *. lia.
Qed.

Lemma build_output_bpms (beat_times : list Q) (merged : list section) :
  forall times bpms,
    build_output beat_times merged = Some (times, bpms) ->
    bpms = map bpm merged.
Proof.
  induction merged as [|s rest IH]; intros times bpms H.
  - now inversion H.
  - destruct rest as [|s' rest'].
    + simpl in H. destruct (closing_time beat_times s); simpl in H;
        [|discriminate].
      now inversion H.
    + change (build_output beat_times (s :: s' :: rest'))
        with (bind (build_output beat_times (s' :: rest'))
                   (fun out => Some (time s :: fst out, bpm s :: snd out))) in H.
      destruct (build_output beat_times (s' :: rest')) as [[ts bs]|];
        simpl in H; [|discriminate].
      inversion H; subst. simpl. f_equal. now apply (IH ts).
Qed.

(** X12: stabilising never adds timing points: the result has at most as
    many BPM values as the input, and at least one when the input has
    any. *)
Theorem stabilize_never_more_points :
  forall (beat_times bpms : list Q) (tolerance : Q) (times out_bpms : list Q),
    stabilize_bpm_sections beat_times bpms tolerance = Some (times, out_bpms) ->
    (length out_bpms <= length bpms)%nat /\
    (bpms <> [] -> 1 <= length out_bpms)%nat.
Proof.
  intros beat_times bpms tolerance times out_bpms H.
  unfold stabilize_bpm_sections in H.
  destruct (length bpms <? 2)%nat eqn:E.
  - inversion H; subst. split; [lia|].
    intros Hne. destruct out_bpms; [congruence | simpl; lia].
  - destruct (segment beat_times bpms tolerance) as [sections|] eqn:Hseg;
      simpl in H; [|discriminate].
    apply build_output_bpms in H. subst out_bpms. rewrite length_map.
    destruct bpms as [|b0 rest]; [discriminate|].
    pose proof (scan_length _ _ _ _ _ _ _ _ Hseg) as Hlen.
    pose proof (scan_some_nonempty _ _ _ _ _ _ _ _ Hseg) as Hne.
    destruct sections as [|s ss]; [congruence|].
    pose proof (merge_from_length tolerance ss s) as Hm.
    simpl in *. split; [lia | intros _; lia].
Qed.

Lemma stabilize_never_more_points_witness :
  exists times out_bpms,
    stabilize_bpm_sections [0; 1; 2; 3; 4; 5] [100; 102.5; 100.4; 101; 101] 2
    = Some (times, out_bpms) /\
    (length out_bpms <= 5)%nat.
Proof.
  eexists. eexists. split; [vm_compute; reflexivity|].
  apply (stabilize_never_more_points [0; 1; 2; 3; 4; 5]
           [100; 102.5; 100.4; 101; 101] 2 [0; 1; 5]).
  vm_compute. reflexivity.
Defined.

End StabilizerInvariants.

(** ** BPM stabiliser: values and times of the result *)

Module StabilizerRange.
Import Stabilizer Sections StabilizerFacts StabilizerInvariants MedianFacts.

(** *** The section medians stay within the range of the input *)

Lemma scan_between (lo hi : Q) (beat_times : list Q) (tolerance : Q)
    (rest : list Q) :
  forall i start cur sections out,
    cur <> [] ->
    (forall x, In x cur -> lo <= x <= hi) ->
    (forall x, In x rest -> lo <= x <= hi) ->
    Forall (fun s => lo <= bpm s <= hi) sections ->
    scan beat_times tolerance rest i start cur sections = Some out ->
    Forall (fun s => lo <= bpm s <= hi) out.
Proof.
  induction rest as [|b rest IH];
    intros i start cur sections out Hne Hcur Hrest Hacc H; simpl in H.
  - destruct (nth_error beat_times start); simpl in H; [|discriminate].
    inversion H; subst. apply Forall_app. split; [exact Hacc|].
    constructor; [|constructor]. simpl. now apply median_between.
  - destruct (within tolerance b (median cur)).
    + eapply IH; [| | | exact Hacc | exact H].
      * intros F. apply app_eq_nil in F. destruct F; discriminate.
      * intros x Hx. apply in_app_or in Hx.
        destruct Hx as [Hx | [<- | []]]; [now apply Hcur|].
        apply Hrest. now left.
      * intros x Hx. apply Hrest. now right.
    + destruct (nth_error beat_times start); simpl in H; [|discriminate].
      eapply IH; [| | | | exact H].
      * discriminate.
      * intros x [<- | []]. apply Hrest. now left.
      * intros x Hx. apply Hrest. now right.
      * apply Forall_app. split; [exact Hacc|].
        constructor; [|constructor]. simpl. now apply median_between.
Qed.

Lemma segment_between (beat_times bpms : list Q) (tolerance lo hi : Q)
    (sections : list section) :
  (forall b, In b bpms -> lo <= b <= hi) ->
  segment beat_times bpms tolerance = Some sections ->
  Forall (fun s => lo <= bpm s <= hi) sections.
Proof.
  intros Hin Hseg.
  destruct bpms as [|b0 rest]; [discriminate|].
  apply (scan_between lo hi beat_times tolerance rest 1 0 [b0] [] sections).
  - discriminate.
  - intros x [<- | []]. apply Hin. now left.
  - intros x Hx. apply Hin. now right.
  - constructor.
  - exact Hseg.
Qed.

(** X13: every BPM value the segmentation scan gives a section, the
    median of the values of that section, lies between the smallest and
    the largest instantaneous BPM: bounds that hold for all input values
    hold for all section values. *)
Theorem section_medians_within_input_range :
  forall (beat_times bpms : list Q) (tolerance lo hi : Q)
         (sections : list section),
    (forall b, In b bpms -> lo <= b <= hi) ->
    segment beat_times bpms tolerance = Some sections ->
    Forall (fun s => lo <= bpm s <= hi) sections.
Proof.
  intros beat_times bpms tolerance lo hi sections.
  apply segment_between.
Qed.

Lemma section_medians_within_input_range_witness :
  exists sections,
    segment [0; 1; 2; 3; 4; 5] [100; 102.5; 100.4; 101; 101] 2 = Some sections /\
    length sections = 3%nat /\
    Forall (fun s => 100 <= bpm s <= 102.5) sections.
Proof.
  eexists. split; [vm_compute; reflexivity|]. split; [reflexivity|].
  eapply (section_medians_within_input_range [0; 1; 2; 3; 4; 5]
            [100; 102.5; 100.4; 101; 101] 2 100 102.5).
  - intros b [<- | [<- | [<- | [<- | [<- | []]]]]]; split; discriminate.
  - vm_compute. reflexivity.
Defined.

(** *** Positive BPM values stay positive

    A merged BPM is a mean of two positive values with positive
    weights. *)
Lemma absorb_positive (last s : section) :
  (start_idx last <= end_idx s)%Z -> (start_idx s <= end_idx s)%Z ->
  0 < bpm last -> 0 < bpm s ->
  0 < bpm (absorb last s).
Proof.
  intros Hl Hs Hl1 Hs1. unfold absorb. simpl.
  set (L := (end_idx s - start_idx last + 1)%Z).
  set (C := (end_idx s - start_idx s + 1)%Z).
  assert (HL : 0 < inject_Z L).
  { change 0 with (inject_Z 0). rewrite <- Zlt_Qlt. unfold L. lia. }
  assert (HC : 0 < inject_Z C).
  { change 0 with (inject_Z 0). rewrite <- Zlt_Qlt. unfold C. lia. }
  rewrite inject_Z_plus.
  assert (HD : 0 < inject_Z L + inject_Z C) by lra.
  pose proof (Qmult_lt_compat_r _ _ (inject_Z L) HL Hl1) as H1.
  pose proof (Qmult_lt_compat_r _ _ (inject_Z C) HC Hs1) as H2.
  apply Qlt_shift_div_l; [exact HD | lra].
Qed.

Lemma merge_from_positive (beat_times : list Q) (tolerance : Q)
    (rest : list section) :
  forall last a b,
    tiling beat_times a (last :: rest) b ->
    Forall (fun s => 0 < bpm s) (last :: rest) ->
    Forall (fun s => 0 < bpm s) (merge_from tolerance last rest).
Proof.
  induction rest as [|s rest IH]; intros last a b Ht Hall; simpl;
    [exact Hall|].
  inversion Hall as [|? ? Hlast Hrest]; subst.
  inversion Hrest as [|? ? Hs Hrest']; subst.
  inversion Ht as [| ? ? ? H0 Hti Htrest]; subst.
  destruct (tiling_head _ _ _ _ Htrest) as (s' & l' & E & Hstart & Hle & _).
  inversion E; subst s' l'.
  destruct (within tolerance (bpm s) (bpm last)).
  - assert (Hs0 : (start_idx s <= end_idx s)%Z).
    { inversion Htrest; subst; lia. }
    apply (IH (absorb last s) (start_idx last) b).
    + inversion Htrest as [? H0s Hts | ? ? ? H0s Hts Hrest'']; subst.
      * apply (tiling_last beat_times (absorb last s)); simpl; [lia | exact Hti].
      * apply (tiling_cons beat_times (absorb last s)); simpl;
          [lia | exact Hti | exact Hrest''].
    + constructor; [|exact Hrest'].
      apply absorb_positive; [lia | exact Hs0 | exact Hlast | exact Hs].
  - constructor; [exact Hlast|].
    now apply (IH s (end_idx last + 1)%Z b).
Qed.

Lemma stabilize_positive (beat_times bpms : list Q) (tolerance lo hi : Q)
    (times out_bpms : list Q) :
  0 < lo ->
  (forall b, In b bpms -> lo <= b <= hi) ->
  stabilize_bpm_sections beat_times bpms tolerance = Some (times, out_bpms) ->
  Forall (fun b => 0 < b) out_bpms.
Proof.
  intros Hlo Hin H.
  unfold stabilize_bpm_sections in H.
  destruct (length bpms <? 2)%nat.
  - inversion H; subst. apply Forall_forall. intros b Hb.
    eapply Qlt_le_trans; [exact Hlo | now apply Hin].
  - destruct (segment beat_times bpms tolerance) as [sections|] eqn:Hseg;
      simpl in H; [|discriminate].
    apply build_output_bpms in H. subst out_bpms.
    pose proof (segment_tiling beat_times bpms tolerance sections Hseg) as Ht.
    assert (Hsec : Forall (fun s => 0 < bpm s) sections).
    { eapply Forall_impl;
        [| exact (segment_between beat_times bpms tolerance lo hi sections
                    Hin Hseg)].
      intros s [Hs _]. eapply Qlt_le_trans; eassumption. }
    destruct (tiling_head _ _ _ _ Ht) as (s & l & -> & _).
    pose proof (merge_from_positive beat_times tolerance l s _ _ Ht Hsec)
      as Hm.
    simpl. apply Forall_forall. intros b Hb.
    apply in_map_iff in Hb. destruct Hb as (x & <- & Hx).
    rewrite Forall_forall in Hm. now apply Hm.
Qed.

(** *** The stabilised times span the beats, in order *)

Lemma build_output_times (beat_times : list Q) (merged : list section) :
  forall lo hi,
    tiling beat_times lo merged hi ->
    (hi + 1 < Z.of_nat (length beat_times))%Z ->
    exists tl,
      nth_error beat_times (Z.to_nat (hi + 1)) = Some tl /\
      build_output beat_times merged
      = Some (map time merged ++ [tl], map bpm merged).
Proof.
  intros lo hi Ht. induction Ht as [s H0 Hti | s l hi H0 Hti Hrest IH];
    intros Hhi.
  - destruct (nth_error beat_times (Z.to_nat (end_idx s + 1))) as [tl|] eqn:E.
    + exists tl. split; [reflexivity|].
      simpl. unfold closing_time, py_index.
      replace (end_idx s + 1 <? Z.of_nat (length beat_times))%Z with true
        by (symmetry; apply Z.ltb_lt; lia).
      replace (0 <=? end_idx s + 1)%Z with true
        by (symmetry; apply Z.leb_le; lia).
      rewrite E. reflexivity.
    + apply nth_error_None in E. lia.
  - destruct (IH Hhi) as (tl & Etl & Eout).
    exists tl. split; [exact Etl|].
    destruct (tiling_head _ _ _ _ Hrest) as (s' & l' & -> & _).
    change (build_output beat_times (s :: s' :: l'))
      with (bind (build_output beat_times (s' :: l'))
                 (fun out => Some (time s :: fst out, bpm s :: snd out))).
    rewrite Eout. reflexivity.
Qed.

Lemma sorted_nth_error_lt (l : list Q) :
  Sorted Qlt l ->
  forall i j x y,
    (i < j)%nat -> nth_error l i = Some x -> nth_error l j = Some y -> x < y.
Proof.
  intros Hs. apply Sorted_StronglySorted in Hs;
    [| intros a b c; apply Qlt_trans].
  induction Hs as [|a l Hs IH Hall]; intros i j x y Hij Hi Hj.
  - destruct i; discriminate.
  - destruct j as [|j]; [lia|]. simpl in Hj.
    destruct i as [|i]; simpl in Hi.
    + inversion Hi; subst. rewrite Forall_forall in Hall.
      apply Hall. eapply nth_error_In; eassumption.
    + apply (IH i j); [lia | exact Hi | exact Hj].
Qed.

Lemma tiling_times_sorted (beat_times : list Q) (merged : list section) :
  Sorted Qlt beat_times ->
  forall lo hi k tl,
    tiling beat_times lo merged hi ->
    (hi < Z.of_nat k)%Z -> nth_error beat_times k = Some tl ->
    Sorted Qlt (map time merged ++ [tl]).
Proof.
  intros Hs lo hi k tl Ht. induction Ht as [s H0 Hti | s l hi H0 Hti Hrest IH];
    intros Hk Htl; simpl.
  - repeat constructor.
    apply (sorted_nth_error_lt beat_times Hs (Z.to_nat (start_idx s)) k);
      [lia | exact Hti | exact Htl].
  - constructor; [now apply IH|].
    destruct (tiling_head _ _ _ _ Hrest) as (s' & l' & -> & _ & Hle & Hts').
    simpl. constructor.
    apply (sorted_nth_error_lt beat_times Hs (Z.to_nat (start_idx s))
             (Z.to_nat (end_idx s + 1)));
      [lia | exact Hti | exact Hts'].
Qed.

Lemma tiling_times_In (beat_times : list Q) (merged : list section)
    (lo hi : Z) :
  tiling beat_times lo merged hi ->
  forall t, In t (map time merged) -> In t beat_times.
Proof.
  induction 1 as [s H0 Hti | s l hi H0 Hti Hrest IH]; intros t Ht; simpl in Ht.
  - destruct Ht as [<- | []]. eapply nth_error_In; eassumption.
  - destruct Ht as [<- | Ht]; [eapply nth_error_In; eassumption | now apply IH].
Qed.

Lemma nth_error_last (l : list Q) (x : Q) :
  nth_error l (length l - 1) = Some x -> last l 0 = x.
Proof.
  induction l as [|a [|b t] IH]; simpl; intros H.
  - discriminate.
  - now inversion H.
  - apply IH. simpl. now rewrite Nat.sub_0_r.
Qed.

(** X14: given one more beat time than BPM values, as [analyze_bpm]
    passes them, the stabilised times begin at the first beat time, end at
    the last one, are all beat times, and are in strictly increasing
    order whenever the beat times are. *)
Theorem stabilized_times_span_the_beats :
  forall (beat_times bpms : list Q) (tolerance : Q),
    (2 <= length bpms)%nat ->
    length beat_times = S (length bpms) ->
    exists times out_bpms,
      stabilize_bpm_sections beat_times bpms tolerance = Some (times, out_bpms) /\
      nth_error times 0 = nth_error beat_times 0 /\
      last times 0 = last beat_times 0 /\
      (forall t, In t times -> In t beat_times) /\
      (Sorted Qlt beat_times -> Sorted Qlt times).
Proof.
  intros beat_times bpms tolerance H2 Hlen.
  unfold stabilize_bpm_sections.
  replace (length bpms <? 2)%nat with false by (symmetry; apply Nat.ltb_ge; lia).
  destruct bpms as [|b0 rest]; [simpl in H2; lia|].
  destruct (scan_returns beat_times tolerance rest 1 0 [b0] [])
    as (sections & Hscan & _ & _); [lia | simpl in *; lia | constructor |].
  assert (Hseg : segment beat_times (b0 :: rest) tolerance = Some sections)
    by exact Hscan.
  rewrite Hseg. simpl bind.
  pose proof (merge_sections_tiling beat_times tolerance sections _ _
                (segment_tiling _ _ _ _ Hseg)) as Ht.
  set (n := length (b0 :: rest)) in *.
  destruct (build_output_times beat_times _ _ _ Ht) as (tl & Etl & Eout);
    [lia|].
  replace (Z.to_nat (Z.of_nat n - 1 + 1)) with n in Etl by lia.
  exists (map time (merge_sections tolerance sections) ++ [tl]),
         (map bpm (merge_sections tolerance sections)).
  split; [exact Eout|].
  destruct (tiling_head _ _ _ _ Ht) as (s & l & Em & _ & _ & Hs).
  split; [| split; [| split]].
  - rewrite Em. simpl. symmetry. exact Hs.
  - rewrite last_last. symmetry. apply nth_error_last.
    replace (length beat_times - 1)%nat with n by lia. exact Etl.
  - intros t Hin. apply in_app_or in Hin.
    destruct Hin as [Hin | [<- | []]].
    + eapply tiling_times_In; eassumption.
    + eapply nth_error_In; eassumption.
  - intros Hsorted.
    apply (tiling_times_sorted beat_times _ Hsorted 0 (Z.of_nat n - 1) n tl);
      [exact Ht | lia | exact Etl].
Qed.

Lemma stabilized_times_span_the_beats_witness :
  exists times out_bpms,
    stabilize_bpm_sections [0; 0.5; 1; 1.5; 1.9; 2.3]
      [120; 120; 120; 150; 150] 2 = Some (times, out_bpms) /\
    nth_error times 0 = Some 0 /\
    last times 0 = 2.3.
Proof.
  destruct (stabilized_times_span_the_beats [0; 0.5; 1; 1.5; 1.9; 2.3]
              [120; 120; 120; 150; 150] 2)
    as (times & out_bpms & H & Hfirst & Hlast & _); [simpl; lia | reflexivity |].
  exists times, out_bpms. split; [exact H|]. split; [exact Hfirst | exact Hlast].
Defined.

End StabilizerRange.

(** ** BPM stabiliser: a steady tempo *)

Module StabilizerSteady.
Import Stabilizer StabilizerFacts.








End StabilizerSteady.

(** ** Onset envelope combiner *)

Module EnvelopeFacts.
Import Envelope MedianFacts.

Lemma fold_max_spec (t : list Q) :
  forall x,
    x <= fold_left Qmax t x /\
    (forall y, In y t -> y <= fold_left Qmax t x) /\
    (forall u, x <= u -> (forall y, In y t -> y <= u) ->
               fold_left Qmax t x <= u).
Proof.
  induction t as [|y t IH]; intros x; simpl.
  - split; [apply Qle_refl|]. split; [intros y [] | intros u Hu _; exact Hu].
  - destruct (IH (Qmax x y)) as (H1 & H2 & H3).
    split; [| split].
    + eapply Qle_trans; [apply Q.le_max_l | exact H1].
    + intros z [<- | Hz]; [| now apply H2].
      eapply Qle_trans; [apply Q.le_max_r | exact H1].
    + intros u Hu Hall. apply H3.
      * apply Q.max_lub; [exact Hu | apply Hall; now left].
      * intros z Hz. apply Hall. now right.
Qed.

(** [np.max] is an upper bound of the array, and the least one. *)
Lemma np_max_spec (a : list Q) (m : Q) :
  np_max a = Some m ->
  (forall x, In x a -> x <= m) /\
  (forall u, (forall x, In x a -> x <= u) -> m <= u).
Proof.
  destruct a as [|x t]; [discriminate|]. simpl. intros H. inversion H; subst.
  destruct (fold_max_spec t x) as (H1 & H2 & H3). split.
  - intros y [<- | Hy]; [exact H1 | now apply H2].
  - intros u Hu. apply H3; [apply Hu; now left|].
    intros y Hy. apply Hu. now right.
Qed.

Lemma zip_with_spec (f : Q -> Q -> Q) (a : list Q) :
  forall b,
    length a = length b ->
    length (zip_with f a b) = length a /\
    forall z, In z (zip_with f a b) ->
              exists x y, In x a /\ In y b /\ z = f x y.
Proof.
  induction a as [|x a IH]; intros [|y b] Hlen; simpl in *; try discriminate.
  - split; [reflexivity | intros z []].
  - destruct (IH b) as [Hl Hin]; [lia|]. split; [now rewrite Hl|].
    intros z [<- | Hz].
    + exists x, y. auto.
    + destruct (Hin z Hz) as (x' & y' & Hx & Hy & E).
      exists x', y'. auto.
Qed.

Lemma median3_In (x y z : Q) : In (median [x; y; z]) [x; y; z].
Proof.
  unfold median. rewrite sort_length. simpl length.
  change (Nat.even 3) with false. cbv iota.
  apply sort_In. apply nth_In. rewrite sort_length. simpl. lia.
Qed.

(** The filter keeps the length and returns values of the array only. *)
Lemma median_filter3_spec (a : list Q) :
  length (median_filter3 a) = length a /\
  forall v, In v (median_filter3 a) -> In v a.
Proof.
  unfold median_filter3. split; [now rewrite length_map, length_seq|].
  intros v Hv. apply in_map_iff in Hv. destruct Hv as (i & <- & Hi).
  apply in_seq in Hi.
  pose proof (median3_In (nth (i - 1) a 0) (nth i a 0)
                (nth (Nat.min (i + 1) (length a - 1)) a 0)) as Hm.
  destruct Hm as [<- | [<- | [<- | []]]]; apply nth_In; lia.
Qed.

(** What each value of the combined envelope is made of. *)
Lemma combined_spec (onset_spectral onset_energy : list Q) :
  onset_spectral <> [] ->
  length onset_spectral = length onset_energy ->
  exists ms me out,
    np_max onset_spectral = Some ms /\ np_max onset_energy = Some me /\
    compute_combined_onset_envelope onset_spectral onset_energy = Some out /\
    length out = length onset_spectral /\
    forall v, In v out ->
      exists x y,
        In x onset_spectral /\ In y onset_energy /\
        v = 0.7 * (x / (ms + 1e-8)) + 0.3 * (y / (me + 1e-8)).
Proof.
  intros Hne Hlen. unfold compute_combined_onset_envelope, normalize.
  destruct onset_spectral as [|x0 a]; [congruence|].
  destruct onset_energy as [|y0 b]; [discriminate|].
  set (sp := x0 :: a) in *. set (en := y0 :: b) in *.
  destruct (np_max sp) as [ms|] eqn:Ems; [|discriminate].
  destruct (np_max en) as [me|] eqn:Eme; [|discriminate].
  exists ms, me.
  unfold weighted_sum. rewrite !length_map.
  replace (length sp =? length en)%nat with true
    by (symmetry; now apply Nat.eqb_eq).
  eexists. split; [reflexivity|]. split; [reflexivity|].
  split; [reflexivity|].
  destruct (median_filter3_spec
              (zip_with (fun x y => 0.7 * x + 0.3 * y)
                 (map (fun x => x / (ms + 1e-8)) sp)
                 (map (fun x => x / (me + 1e-8)) en))) as [Hl Hin].
  destruct (zip_with_spec (fun x y => 0.7 * x + 0.3 * y)
              (map (fun x => x / (ms + 1e-8)) sp)
              (map (fun x => x / (me + 1e-8)) en)) as [Hzl Hzin];
    [now rewrite !length_map|].
  split; [now rewrite Hl, Hzl, length_map|].
  intros v Hv. apply Hin, Hzin in Hv.
  destruct Hv as (x' & y' & Hx & Hy & ->).
  apply in_map_iff in Hx. destruct Hx as (x & <- & Hx).
  apply in_map_iff in Hy. destruct Hy as (y & <- & Hy).
  exists x, y. auto.
Qed.

Lemma normalized_in_unit (x m : Q) :
  0 <= x -> x <= m -> 0 <= x / (m + 1e-8) /\ x / (m + 1e-8) <= 1.
Proof.
  intros H0 Hm.
  assert (He : 0 < 1e-8) by reflexivity.
  assert (Hd : 0 < m + 1e-8) by lra.
  split.
  - apply Qle_shift_div_l; [exact Hd | lra].
  - apply Qle_shift_div_r; [exact Hd | lra].
Qed.

(** X16: two non-negative onset-strength curves of one length (not
    empty) combine into an envelope of that length whose values are all
    between 0 and 1; an empty curve is refused, as [np.max] raises. *)
Theorem combined_envelope_in_unit_interval :
  forall onset_spectral onset_energy : list Q,
    (onset_spectral = [] \/ onset_energy = [] ->
     compute_combined_onset_envelope onset_spectral onset_energy = None) /\
    (onset_spectral <> [] ->
     length onset_spectral = length onset_energy ->
     (forall x, In x onset_spectral -> 0 <= x) ->
     (forall y, In y onset_energy -> 0 <= y) ->
     exists out,
       compute_combined_onset_envelope onset_spectral onset_energy = Some out /\
       length out = length onset_spectral /\
       Forall (fun v => 0 <= v <= 1) out).
Proof.
  intros onset_spectral onset_energy. split.
  - intros [-> | ->]; [reflexivity|].
    unfold compute_combined_onset_envelope.
    destruct (normalize onset_spectral); reflexivity.
  - intros Hne Hlen Hs He.
    destruct (combined_spec onset_spectral onset_energy Hne Hlen)
      as (ms & me & out & Ems & Eme & Eout & Hl & Hin).
    exists out. split; [exact Eout|]. split; [exact Hl|].
    apply Forall_forall. intros v Hv.
    destruct (Hin v Hv) as (x & y & Hx & Hy & ->).
    destruct (np_max_spec _ _ Ems) as [Hms _].
    destruct (np_max_spec _ _ Eme) as [Hme _].
    destruct (normalized_in_unit x ms (Hs x Hx) (Hms x Hx)).
    destruct (normalized_in_unit y me (He y Hy) (Hme y Hy)).
    split; lra.
Qed.

Lemma combined_envelope_witness :
  exists out,
    compute_combined_onset_envelope [0; 2; 4; 1] [1; 0; 3; 3] = Some out /\
    length out = 4%nat /\
    Forall (fun v => 0 <= v <= 1) out.
Proof.
  apply (proj2 (combined_envelope_in_unit_interval [0; 2; 4; 1] [1; 0; 3; 3])).
  - discriminate.
  - reflexivity.
  - intros x [<- | [<- | [<- | [<- | []]]]]; discriminate.
  - intros x [<- | [<- | [<- | [<- | []]]]]; discriminate.
Defined.

(** X17: silence stays silence: two curves that are zero everywhere
    combine into an envelope that is zero everywhere; the epsilon keeps
    the normalisation defined. *)
Theorem combined_envelope_of_silence :
  forall onset_spectral onset_energy : list Q,
    onset_spectral <> [] ->
    length onset_spectral = length onset_energy ->
    (forall x, In x onset_spectral -> x == 0) ->
    (forall y, In y onset_energy -> y == 0) ->
    exists out,
      compute_combined_onset_envelope onset_spectral onset_energy = Some out /\
      length out = length onset_spectral /\
      Forall (fun v => v == 0) out.
Proof.
  intros onset_spectral onset_energy Hne Hlen Hs He.
  destruct (combined_spec onset_spectral onset_energy Hne Hlen)
    as (ms & me & out & _ & _ & Eout & Hl & Hin).
  exists out. split; [exact Eout|]. split; [exact Hl|].
  apply Forall_forall. intros v Hv.
  destruct (Hin v Hv) as (x & y & Hx & Hy & ->).
  rewrite (Hs x Hx), (He y Hy). unfold Qdiv. ring.
Qed.

Lemma combined_envelope_of_silence_witness :
  exists out,
    compute_combined_onset_envelope [0; 0; 0] [0; 0; 0] = Some out /\
    length out = 3%nat /\
    Forall (fun v => v == 0) out.
Proof.
  apply (combined_envelope_of_silence [0; 0; 0] [0; 0; 0]).
  - discriminate.
  - reflexivity.
  - intros x [<- | [<- | [<- | []]]]; reflexivity.
  - intros x [<- | [<- | [<- | []]]]; reflexivity.
Defined.

End EnvelopeFacts.

(** ** The whole analysis after the calls to librosa *)

Module PipelineFacts.
Import Pipeline Stabilizer StabilizerFacts StabilizerRange BpmFacts BpmBounds.

Lemma positive_lower_bound (l : list Q) :
  Forall (fun b => 0 < b) l ->
  exists lo, 0 < lo /\ forall b, In b l -> lo <= b.
Proof.
  induction 1 as [|a l Ha _ (lo & Hlo & Hall)].
  - exists 1. split; [reflexivity | intros b []].
  - exists (Qmin a lo). split.
    + destruct (Q.min_dec a lo) as [E | E]; now rewrite E.
    + intros b [<- | Hb]; [apply Q.le_min_l|].
      eapply Qle_trans; [apply Q.le_min_r | now apply Hall].
Qed.

Lemma detect_nonempty (beat_frames onset_frames : list Q) :
  beat_frames <> [] ->
  Offbeat.detect_and_insert_offbeats beat_frames onset_frames <> [].
Proof.
  intros Hne.
  destruct (OffbeatFacts.detect_returns_input_or_sorted_set
              beat_frames onset_frames) as [-> | [shifts ->]]; [exact Hne|].
  destruct beat_frames as [|x t]; [congruence|].
  intros F.
  assert (Hin : InA Qeq x
                  (sorted_set (Offbeat.insert_all (x :: t) onset_frames shifts))).
  { apply OffbeatFacts.sorted_set_InA. apply In_InA; [exact Q_Setoid|].
    apply OffbeatFacts.insert_all_In. now left. }
  rewrite F in Hin. inversion Hin.
Qed.

Lemma timing_rows_length (beat_times bpms : list Q) :
  length beat_times = S (length bpms) \/ (beat_times = [] /\ bpms = []) ->
  length (timing_rows beat_times bpms) = length bpms.
Proof.
  unfold timing_rows. intros [H | [-> ->]]; [|reflexivity].
  rewrite length_combine, removelast_firstn_len, length_firstn. lia.
Qed.

(** The stabiliser on the times and BPM values [analyze_bpm] gives it. *)
Lemma stabilize_after_analysis (beat_times : list Q) (tolerance : Q) :
  (1 < length beat_times)%nat ->
  exists times out_bpms,
    stabilize_bpm_sections beat_times (Bpm.instantaneous_bpms beat_times)
      tolerance = Some (times, out_bpms) /\
    length times = S (length out_bpms).
Proof.
  intros Hlen.
  set (bpms := Bpm.instantaneous_bpms beat_times).
  assert (Hb : length bpms = (length beat_times - 1)%nat).
  { unfold bpms, Bpm.instantaneous_bpms, Bpm.beat_intervals.
    now rewrite !length_map, diff_length. }
  unfold stabilize_bpm_sections.
  destruct (length bpms <? 2)%nat eqn:E.
  - exists beat_times, bpms. split; [reflexivity | lia].
  - apply Nat.ltb_ge in E.
    destruct bpms as [|b0 rest] eqn:Eb; [simpl in E; lia|].
    destruct (scan_returns beat_times tolerance rest 1 0 [b0] [])
      as (sections & Hscan & Hne & Hends);
      [lia | simpl in Hb; lia | constructor |].
    assert (Hseg : segment beat_times (b0 :: rest) tolerance = Some sections)
      by exact Hscan.
    rewrite Hseg. simpl bind.
    destruct sections as [|s ss]; [congruence|].
    inversion Hends as [|? ? Hs Hss]; subst.
    destruct (build_output_shape beat_times (merge_sections tolerance (s :: ss)))
      as (times & out_bpms & Hout & _ & Ht).
    + destruct beat_times; [simpl in Hlen; lia | discriminate].
    + simpl. pose proof (merge_from_length tolerance ss s) as Hl.
      intros F. rewrite F in Hl. simpl in Hl. lia.
    + simpl. now apply merge_from_ends.
    + exists times, out_bpms. now split.
Qed.

(** Line 149 gives one time per final beat frame. *)
Lemma beat_times_length (onset_env : list Q) (beat_frames onset_frames : list Z)
    (sr : Q) (detect_offbeats : bool) :
  (beat_frames = [] ->
   beat_times onset_env beat_frames onset_frames sr detect_offbeats = []) /\
  (beat_frames <> [] ->
   (1 <= length (beat_times onset_env beat_frames onset_frames sr
                   detect_offbeats))%nat).
Proof.
  unfold beat_times, Interp.frames_to_time_precise, Interp.frames_to_time_by,
    beat_frames_final.
  split.
  - intros ->. now destruct detect_offbeats.
  - intros Hne. rewrite length_map.
    set (refined := Refiner.refine_beats_to_onsets_advanced
                      onset_env beat_frames onset_frames).
    assert (Hrefined : refined <> []).
    { unfold refined, Refiner.refine_beats_to_onsets_advanced.
      destruct beat_frames; [congruence | discriminate]. }
    assert (Hfinal : (if detect_offbeats
                      then Offbeat.detect_and_insert_offbeats refined
                             (map inject_Z onset_frames)
                      else refined) <> []).
    { destruct detect_offbeats; [| exact Hrefined].
      now apply detect_nonempty. }
    destruct (if detect_offbeats then _ else _); [congruence | simpl; lia].
Qed.

(** X18: for all results of librosa, a positive sample rate and all
    settings, if every beat time of line 149 is finite then lines 152-160
    return; when there is at least one beat they return exactly one more
    time than BPM values, with or without offbeat detection and
    stabilisation; every BPM value is positive; and the formatters print
    one row per BPM value. *)
Theorem analyze_bpm_shape :
  forall (onset_env : list Q) (beat_frames onset_frames : list Z) (sr : Q)
         (detect_offbeats stabilize : bool) (bpm_tolerance : Q),
    0 < sr ->
    forallb Ieee.is_finite
      (beat_times onset_env beat_frames onset_frames sr detect_offbeats)
    = true ->
    exists times bpms,
      timing_points
        (map Ieee.to_Q
           (beat_times onset_env beat_frames onset_frames sr detect_offbeats))
        stabilize bpm_tolerance = Some (times, bpms) /\
      (beat_frames <> [] -> length times = S (length bpms)) /\
      Forall (fun b => 0 < b) bpms /\
      length (timing_rows times bpms) = length bpms.
Proof.
  intros onset_env beat_frames onset_frames sr detect_offbeats stabilize
         bpm_tolerance _ _.
  destruct (beat_times_length onset_env beat_frames onset_frames sr
              detect_offbeats) as [Hempty Hlen].
  set (bt := map Ieee.to_Q
               (beat_times onset_env beat_frames onset_frames sr
                  detect_offbeats)).
  assert (Hempty' : beat_frames = [] -> bt = []).
  { intros H. unfold bt. now rewrite (Hempty H). }
  assert (Hbt : beat_frames <> [] -> (1 <= length bt)%nat).
  { intros H. unfold bt. rewrite length_map. now apply Hlen. }
  unfold timing_points.
  pose proof (instantaneous_bpms_bounds bt) as Hbounds.
  assert (Hpos : Forall (fun b => 0 < b) (Bpm.instantaneous_bpms bt)).
  { eapply Forall_impl; [| exact Hbounds]. intros b [H _]. exact H. }
  assert (Hcount : length (Bpm.instantaneous_bpms bt) = (length bt - 1)%nat).
  { unfold Bpm.instantaneous_bpms, Bpm.beat_intervals.
    now rewrite !length_map, diff_length. }
  destruct (stabilize && (1 <? length bt)%nat) eqn:Es.
  - apply andb_true_iff in Es. destruct Es as [_ Es]. apply Nat.ltb_lt in Es.
    destruct (stabilize_after_analysis bt bpm_tolerance Es)
      as (times & out_bpms & Hout & Hshape).
    exists times, out_bpms. split; [exact Hout|]. split; [now intros _|].
    split; [| apply timing_rows_length; now left].
    destruct (positive_lower_bound (Bpm.instantaneous_bpms bt) Hpos)
      as (lo & Hlo & Hall).
    apply (stabilize_positive bt (Bpm.instantaneous_bpms bt) bpm_tolerance
             lo 60000000 times out_bpms); [exact Hlo | | exact Hout].
    intros b Hb. split; [now apply Hall|].
    rewrite Forall_forall in Hbounds. now apply Hbounds.
  - exists bt, (Bpm.instantaneous_bpms bt).
    split; [reflexivity|]. split; [| split; [exact Hpos|]].
    + intros H. specialize (Hbt H). lia.
    + apply timing_rows_length.
      destruct beat_frames as [|f fs].
      * right. rewrite (Hempty' eq_refl). now split.
      * left. assert (1 <= length bt)%nat by (apply Hbt; discriminate). lia.
Qed.

(** Scenario A of the specification: three beats around the peak of
    [0, 1, 3, 1, 0], no onsets, at 44100 Hz. *)
Lemma analyze_bpm_shape_witness :
  exists times bpms,
    timing_points
      (map Ieee.to_Q (beat_times [0; 1; 3; 1; 0] [1; 2; 3]%Z [] 44100 true))
      true 2 = Some (times, bpms) /\
    length times = S (length bpms) /\
    Forall (fun b => 0 < b) bpms.
Proof.
  destruct (analyze_bpm_shape [0; 1; 3; 1; 0] [1; 2; 3]%Z [] 44100 true true 2)
    as (times & bpms & H1 & H2 & H3 & _).
  - reflexivity.
  - vm_compute. reflexivity.
  - exists times, bpms. split; [exact H1|]. split; [|exact H3].
    apply H2. discriminate.
Defined.

End PipelineFacts.
